(** * smart_excel_csv_analysis_tool: the query synthesis and safety pipeline

    A shallow embedding of [src/smart_excel_csv_analysis_tool.py] and the
    properties of its guardrails: the Markdown fence extractor, the safety
    gate, the limit enforcer, the execution engine, the summarizer, the schema
    descriptor builder and the interactive loop that chains them.

    Embedded from the source: [strip_sql_markdown], [is_safe_query],
    [enforce_limit], [extract_metadata_from_db], [generate_select_sql],
    [execute_query], [generate_summary] and the loop of the [__main__] block.
    File loading, cleaning and table creation come before the loop and are
    not part of it.

    Python values are modelled as follows.
    - A [str] is the list of its Unicode code points.
    - The Unicode tables behind [str.upper], [str.lower], [str.strip] and the
      regex classes are an interface ([Unicode]) that fixes them on ASCII,
      where Python fixes them, and leaves the rest of the tables free.
    - The store (DuckDB), the language-model service and the telemetry
      collaborator are an interface ([External]) of oracles; every call is
      logged in a [trace].
    - Exceptions are values of [exn]; a function that may raise runs in the
      state-and-error monad [M]. *)

From Stdlib Require Import String Ascii DecimalString.
From Stdlib Require Import List NArith ZArith Bool Lia.
Close Scope string_scope.
Import ListNotations.

(** ** Text *)

Definition char := N.
Definition str := list char.

(** A literal of the source, as code points. *)
Definition lit (s : string) : str := map N_of_ascii (list_ascii_of_string s).

Definition char_eqb (a b : char) : bool := N.eqb a b.

Fixpoint str_eqb (a b : str) : bool :=
  match a, b with
  | [], [] => true
  | x :: a', y :: b' => char_eqb x y && str_eqb a' b'
  | _, _ => false
  end.

(** [p in s] on one position: [s.startswith(p)]. *)
Fixpoint starts_with (p s : str) : bool :=
  match p, s with
  | [], _ => true
  | _ :: _, [] => false
  | a :: p', b :: s' => char_eqb a b && starts_with p' s'
  end.

(** Python's [p in s] for two strings: [p] occurs in [s] at some offset. *)
Fixpoint contains (p s : str) : bool :=
  starts_with p s ||
  match s with
  | [] => false
  | _ :: s' => contains p s'
  end.

(** The number of offsets of [s] at which [p] occurs. *)
Fixpoint count_sub (p s : str) : nat :=
  (if starts_with p s then 1 else 0) +
  match s with
  | [] => 0
  | _ :: s' => count_sub p s'
  end.

Definition char_in (c : char) (cs : str) : bool := existsb (char_eqb c) cs.

(** [s.rstrip(cs)]: drop every trailing character that is in [cs]. *)
Fixpoint rstrip_chars (cs s : str) : str :=
  match s with
  | [] => []
  | c :: s' =>
      match rstrip_chars cs s' with
      | [] => if char_in c cs then [] else [c]
      | r => c :: r
      end
  end.

Fixpoint drop_while (f : char -> bool) (s : str) : str :=
  match s with
  | [] => []
  | c :: s' => if f c then drop_while f s' else s
  end.

Fixpoint take_while (f : char -> bool) (s : str) : str :=
  match s with
  | [] => []
  | c :: s' => if f c then c :: take_while f s' else []
  end.

(** [str(n)] for a Python int. *)
Definition str_of_int (n : Z) : str := lit (NilZero.string_of_int (Z.to_int n)).

(** ** The Unicode tables *)

Definition is_ascii (c : char) : bool := (c <? 128)%N.

Definition ascii_upper (c : char) : char :=
  if ((97 <=? c) && (c <=? 122))%N then (c - 32)%N else c.

Definition ascii_lower (c : char) : char :=
  if ((65 <=? c) && (c <=? 90))%N then (c + 32)%N else c.

(** Tab, line feed, vertical tab, form feed, carriage return, the four
    separators 28-31 and the space. *)
Definition ascii_space (c : char) : bool :=
  (((9 <=? c) && (c <=? 13)) || ((28 <=? c) && (c <=? 32)))%N.

Definition ascii_alnum (c : char) : bool :=
  (((48 <=? c) && (c <=? 57)) || ((65 <=? c) && (c <=? 90)) ||
   ((97 <=? c) && (c <=? 122)))%N.

(** What the program uses of Python's Unicode database. [str.upper] maps each
    code point on its own to one to three code points; [str.lower] is taken on
    whole strings, since it reads the context of a capital sigma. On ASCII the
    four are the functions above. *)
Class Unicode := {
  to_upper_full : char -> str;
  str_lower : str -> str;
  is_space : char -> bool;
  is_alnum : char -> bool;
  to_upper_full_ascii :
    forall c, is_ascii c = true -> to_upper_full c = [ascii_upper c];
  str_lower_ascii :
    forall s, forallb is_ascii s = true -> str_lower s = map ascii_lower s;
  is_space_ascii : forall c, is_ascii c = true -> is_space c = ascii_space c;
  is_alnum_ascii : forall c, is_ascii c = true -> is_alnum c = ascii_alnum c
}.

(** The tables cut down to ASCII: a code point outside ASCII has no case and
    is neither a space nor a letter. The concrete runs below use it on ASCII
    texts, where every instance computes the same. *)
#[export] Instance ascii_tables : Unicode := {|
  to_upper_full := fun c => [ascii_upper c];
  str_lower := map ascii_lower;
  is_space := ascii_space;
  is_alnum := ascii_alnum;
  to_upper_full_ascii := fun _ _ => eq_refl;
  str_lower_ascii := fun _ _ => eq_refl;
  is_space_ascii := fun _ _ => eq_refl;
  is_alnum_ascii := fun _ _ => eq_refl
|}.

Section Guardrails.
Context {U : Unicode}.

(** [s.upper()] *)
Definition upper (s : str) : str := flat_map to_upper_full s.

(** [s.strip()]: drop leading and trailing whitespace. *)
Definition strip (s : str) : str :=
  rev (drop_while is_space (rev (drop_while is_space s))).

(** ** Markdown fence extractor *)

(** The part of Python's regex language that the pattern of
    [strip_sql_markdown] is written in. Every repetition of the pattern ranges
    over a class of single characters. *)
Inductive regex :=
| Lit (s : str)                  (* the characters of [s], one after the other *)
| Seq (r1 r2 : regex)            (* r1 r2 *)
| Opt (r : regex)                (* r?    greedy *)
| Plus (f : char -> bool)        (* [f]+  greedy *)
| Star (f : char -> bool)        (* [f]*  greedy *)
| LazyStar (f : char -> bool)    (* [f]*? *)
| Group (r : regex).             (* (r)   capturing *)

(** One way of matching at the front of a text: the text consumed, what the
    group captured, and the text left. *)
Definition attempt := (str * option str * str)%type.

(** The ways [[f]*] can match at the front of [s], longest first. *)
Fixpoint greedy_runs (f : char -> bool) (s : str) : list (str * str) :=
  match s with
  | [] => [([], [])]
  | c :: s' =>
      if f c
      then map (fun ur => (c :: fst ur, snd ur)) (greedy_runs f s') ++ [([], s)]
      else [([], s)]
  end.

(** The ways [[f]*?] can match at the front of [s], shortest first. *)
Fixpoint lazy_runs (f : char -> bool) (s : str) : list (str * str) :=
  ([], s) ::
  match s with
  | [] => []
  | c :: s' =>
      if f c then map (fun ur => (c :: fst ur, snd ur)) (lazy_runs f s') else []
  end.

Definition ungrouped (ur : str * str) : attempt := (fst ur, None, snd ur).

(** The backtracking matcher: every way [r] matches at the front of [s], in
    the order in which the engine tries them. *)
Fixpoint run (r : regex) (s : str) : list attempt :=
  match r with
  | Lit l =>
      if starts_with l s
      then [(firstn (length l) s, None, skipn (length l) s)]
      else []
  | Seq r1 r2 =>
      flat_map
        (fun a1 : attempt =>
           let '(u, g, s1) := a1 in
           map (fun a2 : attempt =>
                  let '(v, g', s2) := a2 in
                  (u ++ v, match g' with Some _ => g' | None => g end, s2))
               (run r2 s1))
        (run r1 s)
  | Opt r1 => run r1 s ++ [([], None, s)]
  | Plus f =>
      match s with
      | [] => []
      | c :: s' =>
          if f c
          then map (fun ur => (c :: fst ur, None, snd ur)) (greedy_runs f s')
          else []
      end
  | Star f => map ungrouped (greedy_runs f s)
  | LazyStar f => map ungrouped (lazy_runs f s)
  | Group r1 =>
      map (fun a : attempt => let '(u, _, s1) := a in (u, Some u, s1)) (run r1 s)
  end.

(** [re.search]: the first way of matching at the leftmost offset that has
    one. *)
Fixpoint re_search (r : regex) (s : str) : option attempt :=
  match run r s with
  | m :: _ => Some m
  | [] =>
      match s with
      | [] => None
      | _ :: s' => re_search r s'
      end
  end.

(** [match.group(1)] *)
Definition group1 (m : attempt) : str :=
  match m with
  | (_, Some g, _) => g
  | (_, None, _) => []
  end.

Definition fence : str := lit "```".

(** [\w]: alphanumeric or the underscore. *)
Definition is_word (c : char) : bool := is_alnum c || char_eqb c 95%N.

(** [.] under [re.DOTALL] *)
Definition any_char (_ : char) : bool := true.

(** The pattern [```(?:\w+)?\s*(.*?)```]. [re.IGNORECASE] changes nothing in
    it: the backquote has no case and the classes are closed under case. *)
Definition pattern : regex :=
  Seq (Lit fence)
    (Seq (Opt (Plus is_word))
       (Seq (Star is_space)
          (Seq (Group (LazyStar any_char)) (Lit fence)))).

Definition strip_sql_markdown (text : str) : str :=
  match re_search pattern text with
  | Some m => strip (group1 m)
  | None => strip text
  end.

(** ** Safety gate and limit enforcer *)

Definition forbidden : list str :=
  [lit "INSERT"; lit "UPDATE"; lit "DELETE"; lit "DROP"; lit "ALTER"; lit "CREATE"].

Definition is_safe_query (query : str) : bool :=
  let upper_query := upper query in
  negb (existsb (fun keyword => contains keyword upper_query) forbidden).

Definition default_limit : Z := 10.

Definition enforce_limit (query : str) (limit : Z) : str :=
  if negb (contains (lit "LIMIT") (upper query))
  then rstrip_chars (lit ";") query ++ lit " LIMIT " ++ str_of_int limit ++ lit ";"
  else query.

End Guardrails.

(** ** Data frames and dictionaries *)

(** A cell of a data frame or a value of a dictionary. Two cells are equal as
    keys when they are the same here; the program only uses cells as keys for
    the column names that DESCRIBE returns, which are strings. *)
Inductive value :=
| VNone
| VInt (n : Z)
| VStr (s : str)
| VOpaque (id : N).   (* any other object: a float, a timestamp, ... *)

Definition value_eqb (a b : value) : bool :=
  match a, b with
  | VNone, VNone => true
  | VInt n, VInt m => Z.eqb n m
  | VStr s, VStr t => str_eqb s t
  | VOpaque i, VOpaque j => N.eqb i j
  | _, _ => false
  end.

(** A Python [dict]: the items in insertion order, no key twice. *)
Definition dict (K V : Type) := list (K * V).

Section Dict.
Variables K V : Type.
Variable eqb : K -> K -> bool.

(** [d[k] = v]: a key that is there keeps its place. *)
Fixpoint dict_set (d : dict K V) (k : K) (v : V) : dict K V :=
  match d with
  | [] => [(k, v)]
  | (k', v') :: d' =>
      if eqb k' k then (k', v) :: d' else (k', v') :: dict_set d' k v
  end.

(** [dict(items)] *)
Definition dict_of_items (items : list (K * V)) : dict K V :=
  fold_left (fun d kv => dict_set d (fst kv) (snd kv)) items [].

Definition dict_keys (d : dict K V) : list K := map fst d.

End Dict.

Arguments dict_set {K V} eqb d k v.
Arguments dict_of_items {K V} eqb items.
Arguments dict_keys {K V} d.

(** A pandas [DataFrame]: the column labels and the rows, each row with one
    cell per column. *)
Record DataFrame := {
  df_columns : list str;
  df_rows : list (list value)
}.

(** [df.empty]: some axis has length 0. *)
Definition df_empty (df : DataFrame) : bool :=
  (length (df_columns df) =? 0) || (length (df_rows df) =? 0).

(** [df.head(n)] *)
Definition df_head (n : nat) (df : DataFrame) : DataFrame :=
  {| df_columns := df_columns df; df_rows := firstn n (df_rows df) |}.

Definition record := dict str value.

(** [df.to_dict(orient="records")] *)
Definition df_to_records (df : DataFrame) : list record :=
  map (fun row => dict_of_items str_eqb (combine (df_columns df) row)) (df_rows df).

Fixpoint index_of (label : str) (labels : list str) : option nat :=
  match labels with
  | [] => None
  | l :: labels' =>
      if str_eqb l label then Some 0
      else option_map S (index_of label labels')
  end.

(** [df[label]] as a list; [None] stands for the [KeyError] of a label that
    is not a column. *)
Definition df_col (df : DataFrame) (label : str) : option (list value) :=
  option_map (fun i => map (fun row => nth i row VNone) (df_rows df))
             (index_of label (df_columns df)).

(** The schema descriptor: the dictionary [metadata] of the source, whose
    three keys are fixed. *)
Record metadata := {
  md_columns : list value;
  md_dtypes : dict value value;
  md_sample_rows : list record
}.

(** ** Effects *)

Inductive exn :=
| EOFError                      (* [input()] at the end of the input *)
| KeyError (label : str)        (* a data frame without the column asked for *)
| AttributeError                (* [.strip()] on a response without content *)
| StoreError (msg : str)        (* raised by the store *)
| ServiceError (msg : str)      (* raised by the language-model client *)
| TelemetryError (msg : str).   (* raised by [maintain_tokens_count] *)

(** What an f-string of the source puts into a prompt: its literal text and,
    for each slot, the object that is formatted there. *)
Inductive fragment :=
| FLit (s : str)
| FStr (s : str)
| FList (l : list value)
| FDict (d : dict value value)
| FRecords (l : list record).

Inductive role := System | User.

Record message := { msg_role : role; msg_content : list fragment }.

(** The arguments of [client.chat.completions.create]; the temperature is a
    decimal fraction. *)
Record request := {
  rq_model : str;
  rq_messages : list message;
  rq_temperature : Z * positive
}.

(** The [n]-th response of the service; [rs_content] is
    [choices[0].message.content]. *)
Record response := { rs_id : nat; rs_content : option str }.

Inductive printed :=
| PStr (s : str)
| PFrame (df : DataFrame).

(** What the program does to the world outside, in the order it does it. *)
Inductive event :=
| Prompted (prompt : str)            (* [input(prompt)] *)
| Printed (items : list printed)     (* [print(...)] *)
| Requested (n : nat) (rq : request) (* the [n]-th call of the service *)
| Counted (n : nat)                  (* [maintain_tokens_count] on response [n] *)
| Connected (con : nat)              (* [duckdb.connect] *)
| Executed (con : nat) (q : str)     (* [con.execute(q).fetchdf()] *)
| Closed (con : nat).                (* [con.close()] *)

(** The collaborators of the program. The store answers a statement with a
    data frame or an error and moves to a new state; the service and the
    telemetry answer each call by its number. *)
Class External := {
  store : Type;
  db_connect : store -> option exn;
  db_execute : store -> str -> (exn + DataFrame) * store;
  llm_create : nat -> request -> exn + option str;
  tokens_count : nat -> option exn
}.

Section Pipeline.
Context {U : Unicode} {X : External}.

Record world := {
  w_store : store;
  w_open : list nat;     (* the connections that are open *)
  w_next : nat;          (* the next connection handle *)
  w_calls : nat;         (* the calls of the service so far *)
  w_trace : list event
}.

Definition log (e : event) (w : world) : world :=
  {| w_store := w_store w; w_open := w_open w; w_next := w_next w;
     w_calls := w_calls w; w_trace := w_trace w ++ [e] |}.

(** A computation that reads and changes the world and returns or raises. *)
Definition M (A : Type) := world -> (exn + A) * world.

Definition ret {A} (a : A) : M A := fun w => (inr a, w).
Definition raise {A} (e : exn) : M A := fun w => (inl e, w).
Definition bind {A B} (m : M A) (k : A -> M B) : M B :=
  fun w =>
    match m w with
    | (inl e, w') => (inl e, w')
    | (inr a, w') => k a w'
    end.

Notation "x <- m ;; k" := (bind m (fun x => k))
  (at level 61, m at next level, right associativity).
Notation "m ;;; k" := (bind m (fun _ => k))
  (at level 61, right associativity).

Definition emit (e : event) : M unit := fun w => (inr tt, log e w).

Definition print (items : list printed) : M unit := emit (Printed items).

(** [duckdb.connect(DB_PATH)] *)
Definition connect : M nat :=
  fun w =>
    match db_connect (w_store w) with
    | Some e => (inl e, w)
    | None =>
        let con := w_next w in
        (inr con,
         log (Connected con)
           {| w_store := w_store w; w_open := con :: w_open w;
              w_next := S con; w_calls := w_calls w; w_trace := w_trace w |})
    end.

(** [con.execute(q).fetchdf()] *)
Definition execute_fetchdf (con : nat) (q : str) : M DataFrame :=
  fun w =>
    let (r, s) := db_execute (w_store w) q in
    (r,
     log (Executed con q)
       {| w_store := s; w_open := w_open w; w_next := w_next w;
          w_calls := w_calls w; w_trace := w_trace w |}).

(** [con.close()] *)
Definition close (con : nat) : M unit :=
  fun w =>
    (inr tt,
     log (Closed con)
       {| w_store := w_store w;
          w_open := filter (fun c => negb (c =? con)) (w_open w);
          w_next := w_next w; w_calls := w_calls w; w_trace := w_trace w |}).

(** [client.chat.completions.create(...)] *)
Definition chat_create (rq : request) : M response :=
  fun w =>
    let n := w_calls w in
    let w' :=
      log (Requested n rq)
        {| w_store := w_store w; w_open := w_open w; w_next := w_next w;
           w_calls := S n; w_trace := w_trace w |} in
    match llm_create n rq with
    | inl e => (inl e, w')
    | inr c => (inr {| rs_id := n; rs_content := c |}, w')
    end.

(** [maintain_tokens_count(response)], of the module [dev]. *)
Definition maintain_tokens_count (r : response) : M unit :=
  fun w =>
    match tokens_count (rs_id r) with
    | Some e => (inl e, log (Counted (rs_id r)) w)
    | None => (inr tt, log (Counted (rs_id r)) w)
    end.

(** [response.choices[0].message.content.strip()] *)
Definition content_strip (r : response) : M str :=
  match rs_content r with
  | Some c => ret (strip c)
  | None => raise AttributeError
  end.

(** [df[label].tolist()] *)
Definition column (df : DataFrame) (label : str) : M (list value) :=
  match df_col df label with
  | Some l => ret l
  | None => raise (KeyError label)
  end.

(** ** The program *)

Definition deployment : str := lit "gpt-4.1".
Definition TABLE_NAME : str := lit "uploaded_data".

Definition extract_metadata_from_db (table_name : str) : M metadata :=
  con <- connect ;;
  schema <- execute_fetchdf con (lit "DESCRIBE " ++ table_name) ;;
  sample <- execute_fetchdf con (lit "SELECT * FROM " ++ table_name ++ lit " LIMIT 3") ;;
  close con ;;;
  columns <- column schema (lit "column_name") ;;
  names <- column schema (lit "column_name") ;;
  types <- column schema (lit "column_type") ;;
  ret {| md_columns := columns;
         md_dtypes := dict_of_items value_eqb (combine names types);
         md_sample_rows := df_to_records sample |}.

Definition select_system_prompt (md : metadata) (table_name : str) : list fragment :=
  [FLit (lit "
You are a DuckDB SQL expert.

You must generate ONLY a SELECT query.
Never modify data.
Never use INSERT, UPDATE, DELETE, DROP, ALTER, CREATE.

Before Generating SQL query you should consder all columns and sample rows to understand user's intent
to generate proper sql query , because sometimes column names and record inside it can be ambigious so
you must torelarate that edge case okay 

Table Name: ");
   FStr table_name;
   FLit (lit "
Columns: ");
   FList (md_columns md);
   FLit (lit "
Types: ");
   FDict (md_dtypes md);
   FLit (lit "
Sample Rows : ");
   FRecords (md_sample_rows md);
   FLit (lit "

Return ONLY SQL.
")].

Definition generate_select_sql (user_query : str) (md : metadata) (table_name : str) : M str :=
  response <-
    chat_create
      {| rq_model := deployment;
         rq_messages :=
           [ {| msg_role := System; msg_content := select_system_prompt md table_name |};
             {| msg_role := User; msg_content := [FStr user_query] |} ];
         rq_temperature := (0%Z, 1%positive) |} ;;
  maintain_tokens_count response ;;;
  print [PStr (lit "[ANALYSIS LLM CALL]")] ;;;
  content <- content_strip response ;;
  ret (strip_sql_markdown content).

Definition execute_query (query : str) : M DataFrame :=
  con <- connect ;;
  result <- execute_fetchdf con query ;;
  close con ;;;
  ret result.

Definition no_records : str := lit "No records matched the query.".

Definition summary_system_prompt : list fragment :=
  [FLit (lit "
You are a data analyst.
Write a concise factual summary of the query result.
Do not hallucinate.
Only use provided data.
")].

Definition summary_user_prompt (user_query : str) (preview : list record) : list fragment :=
  [FLit (lit "
User Question:
");
   FStr user_query;
   FLit (lit "

Query Result:
");
   FRecords preview;
   FLit (lit "
")].

Definition generate_summary (user_query : str) (result_df : DataFrame) : M str :=
  if df_empty result_df then ret no_records
  else
    let preview := df_to_records (df_head 10 result_df) in
    response <-
      chat_create
        {| rq_model := deployment;
           rq_messages :=
             [ {| msg_role := System; msg_content := summary_system_prompt |};
               {| msg_role := User; msg_content := summary_user_prompt user_query preview |} ];
           rq_temperature := (2%Z, 10%positive) |} ;;
    print [PStr (lit "[SUMMARY LLM CALL]")] ;;;
    maintain_tokens_count response ;;;
    content_strip response.

(** The texts the loop prints. *)
Definition ask_prompt : str := lit "
Ask something (or type exit): ".
Definition blocked_notice : str := lit "Unsafe query blocked.".
Definition generated_header : str := lit "
Generated SQL:
".
Definition result_header : str := lit "
--- Result (First 10 Rows) ---
".
Definition summary_header : str := lit "
--- Summary ---
".

(** One pass of the [while True] loop for each line of the input; [input]
    raises [EOFError] when no line is left. *)
Fixpoint main_loop (md : metadata) (lines : list str) : M unit :=
  emit (Prompted ask_prompt) ;;;
  match lines with
  | [] => raise EOFError
  | user_input :: lines' =>
      if str_eqb (str_lower user_input) (lit "exit") then ret tt
      else
        sql_query <- generate_select_sql user_input md TABLE_NAME ;;
        if negb (is_safe_query sql_query)
        then
          print [PStr blocked_notice] ;;;
          main_loop md lines'
        else
          let sql_query := enforce_limit sql_query default_limit in
          print [PStr generated_header; PStr sql_query] ;;;
          result_df <- execute_query sql_query ;;
          print [PStr result_header] ;;;
          print [PFrame (df_head 10 result_df)] ;;;
          summary <- generate_summary user_input result_df ;;
          print [PStr summary_header] ;;;
          print [PStr summary] ;;;
          main_loop md lines'
  end.

(** The interactive part of the [__main__] block: the metadata is read once,
    then the loop runs. *)
Definition interactive (lines : list str) : M unit :=
  md <- extract_metadata_from_db TABLE_NAME ;;
  main_loop md lines.

End Pipeline.

(** ** Ingestion *)

(** [s.endswith(suffix)] *)
Definition ends_with (suffix s : str) : bool := starts_with (rev suffix) (rev s).

(** A frame as pandas reads it from a file: each column with its label and
    the name of its dtype, and the rows. *)
Record LoadedFrame := {
  lf_columns : list (str * str);
  lf_rows : list (list value)
}.

Definition frame_of (df : LoadedFrame) : DataFrame :=
  {| df_columns := map fst (lf_columns df); df_rows := lf_rows df |}.

(** [list(df.columns)], [df.dtypes.astype(str).to_dict()] and
    [df.head(5).to_dict(orient="records")]. *)
Definition extract_dataframe_metadata (df : LoadedFrame) : metadata :=
  {| md_columns := map (fun c : str * str => VStr (fst c)) (lf_columns df);
     md_dtypes :=
       dict_of_items value_eqb
         (map (fun c : str * str => (VStr (fst c), VStr (snd c))) (lf_columns df));
     md_sample_rows := df_to_records (df_head 5 (frame_of df)) |}.

(** What can end the start of the program: the errors of the turn and those
    of the configuration and of the file. *)
Inductive startup_exn :=
| RuntimeError (msg : str)      (* the configuration check *)
| ValueError (msg : str)        (* [load_file] on an unknown extension *)
| ReaderError (msg : str)       (* raised by [pd.read_csv] or [pd.read_excel] *)
| CleaningError (msg : str)     (* raised inside [clean_data] *)
| Raised (e : exn).

(** The collaborators of the ingestion. The readers of pandas answer a path
    with a frame or an error. [clean_data] fills missing cells with medians
    that pandas computes in floating point; it is taken by what it returns on
    each frame. The store runs a statement whose result is not fetched, and
    registers a frame under a name. *)
Class Ingest {X : External} := {
  read_csv : str -> str + LoadedFrame;
  read_excel : str -> str + LoadedFrame;
  clean_data : LoadedFrame -> str + LoadedFrame;
  db_run : store -> str -> option exn * store;
  db_register : store -> str -> LoadedFrame -> option exn * store
}.

Section Ingestion.
Context {U : Unicode} {X : External} {I : Ingest}.

Notation "x <- m ;; k" := (bind m (fun x => k))
  (at level 61, m at next level, right associativity).
Notation "m ;;; k" := (bind m (fun _ => k))
  (at level 61, right associativity).

Definition load_file (file_path : str) : startup_exn + LoadedFrame :=
  if ends_with (lit ".csv") file_path then
    match read_csv file_path with
    | inl msg => inl (ReaderError msg)
    | inr df => inr df
    end
  else if ends_with (lit ".xlsx") file_path then
    match read_excel file_path with
    | inl msg => inl (ReaderError msg)
    | inr df => inr df
    end
  else inl (ValueError (lit "Unsupported file format")).

Definition create_system_prompt (md : metadata) (table_name : str) : list fragment :=
  [FLit (lit "
You are a SQL expert.
Generate a DuckDB CREATE TABLE statement.

Table Name: ");
   FStr table_name;
   FLit (lit "

Columns: ");
   FList (md_columns md);
   FLit (lit "
Types: ");
   FDict (md_dtypes md);
   FLit (lit "
Sample Rows: ");
   FRecords (md_sample_rows md);
   FLit (lit "

Return ONLY valid SQL.
")].

Definition generate_create_table_sql (md : metadata) (table_name : str) : M str :=
  response <-
    chat_create
      {| rq_model := deployment;
         rq_messages :=
           [ {| msg_role := System; msg_content := create_system_prompt md table_name |} ];
         rq_temperature := (0%Z, 1%positive) |} ;;
  maintain_tokens_count response ;;;
  print [PStr (lit "[CREATE TABLE LLM CALL]")] ;;;
  content <- content_strip response ;;
  ret (strip_sql_markdown content).

(** [con.execute(q)], the result left where it is. *)
Definition run_statement (con : nat) (q : str) : M unit :=
  fun w =>
    let (r, s) := db_run (w_store w) q in
    (match r with Some e => inl e | None => inr tt end,
     log (Executed con q)
       {| w_store := s; w_open := w_open w; w_next := w_next w;
          w_calls := w_calls w; w_trace := w_trace w |}).

(** [con.register(name, df)] *)
Definition register (con : nat) (name : str) (df : LoadedFrame) : M unit :=
  fun w =>
    let (r, s) := db_register (w_store w) name df in
    (match r with Some e => inl e | None => inr tt end,
     {| w_store := s; w_open := w_open w; w_next := w_next w;
        w_calls := w_calls w; w_trace := w_trace w |}).

Definition store_table (df : LoadedFrame) (create_sql : str) (table_name : str) : M unit :=
  con <- connect ;;
  run_statement con (lit "DROP TABLE IF EXISTS " ++ table_name) ;;;
  run_statement con create_sql ;;;
  register con (lit "temp_df") df ;;;
  run_statement con (lit "INSERT INTO " ++ table_name ++ lit " SELECT * FROM temp_df") ;;;
  close con.

Definition verification_header : str := lit "
--- Verification (First 20 Rows) ---
".

Definition verify_table (table_name : str) : M unit :=
  con <- connect ;;
  print [PStr verification_header] ;;;
  result <- execute_fetchdf con (lit "SELECT * FROM " ++ table_name ++ lit " LIMIT 20;") ;;
  print [PFrame result] ;;;
  close con.

(** The start of the program runs in the same world and may also end on an
    error of its own. *)
Definition Boot (A : Type) := world -> (startup_exn + A) * world.

Definition sret {A} (a : A) : Boot A := fun w => (inr a, w).
Definition sbind {A B} (m : Boot A) (k : A -> Boot B) : Boot B :=
  fun w =>
    match m w with
    | (inl e, w') => (inl e, w')
    | (inr a, w') => k a w'
    end.

(** A computation of the turn, run at the start. *)
Definition lift {A} (m : M A) : Boot A :=
  fun w =>
    match m w with
    | (inl e, w') => (inl (Raised e), w')
    | (inr a, w') => (inr a, w')
    end.

(** A call that returns or raises and leaves the world as it is. *)
Definition pure_call {A} (r : startup_exn + A) : Boot A := fun w => (r, w).

Definition say (s : str) : Boot unit := lift (print [PStr s]).

Definition process_file (file_path : str) : Boot unit :=
  sbind (say (lit "Loading file...")) (fun _ =>
  sbind (pure_call (load_file file_path)) (fun df =>
  sbind (say (lit "Cleaning data...")) (fun _ =>
  sbind (pure_call
           match clean_data df with
           | inl msg => inl (CleaningError msg)
           | inr df' => inr df'
           end) (fun df =>
  sbind (say (lit "Extracting metadata...")) (fun _ =>
  let md := extract_dataframe_metadata df in
  sbind (say (lit "Generating CREATE TABLE SQL...")) (fun _ =>
  sbind (lift (generate_create_table_sql md TABLE_NAME)) (fun create_sql =>
  sbind (say (lit "
Generated SQL:
")) (fun _ =>
  sbind (say create_sql) (fun _ =>
  sbind (say (lit "
Storing table...")) (fun _ =>
  sbind (lift (store_table df create_sql TABLE_NAME)) (fun _ =>
  sbind (lift (verify_table TABLE_NAME)) (fun _ =>
  say (lit "
Initial pipeline completed successfully.
"))))))))))))).

(** The check of the configuration section: [not x] holds of a variable that
    is not set and of one that is empty. *)
Definition is_missing (v : option str) : bool :=
  match v with
  | None | Some [] => true
  | Some (_ :: _) => false
  end.

Definition check_config (api_key azure_endpoint : option str) : Boot unit :=
  if is_missing api_key || is_missing azure_endpoint
  then pure_call (inl (RuntimeError (lit "Azure OpenAI configuration is missing.")))
  else sret tt.

(** The module run as a script: the configuration section, then the
    [__main__] block. *)
Definition script (api_key azure_endpoint : option str) (lines : list str) : Boot unit :=
  sbind (check_config api_key azure_endpoint) (fun _ =>
  sbind (process_file (lit "testdata.csv")) (fun _ =>
  sbind (lift (extract_metadata_from_db TABLE_NAME)) (fun md =>
  lift (main_loop md lines)))).

End Ingestion.

(** The statements sent to the store, in order. *)
Fixpoint executed (tr : list event) : list str :=
  match tr with
  | [] => []
  | Executed _ q :: tr' => q :: executed tr'
  | _ :: tr' => executed tr'
  end.

(** ** Specification vocabulary *)

(** [p] occurs in [s]: at some position, whatever stands before and after. *)
Definition occurs (p s : str) : Prop := exists a b, s = a ++ p ++ b.

(** The statement terminator. *)
Definition terminator : char := 59%N.

(** The limit enforcer read off the words of the specification: strip a
    trailing terminator if there is one, append the bound clause with the
    default value, append the terminator again. *)
Definition strip_one_terminator (q : str) : str :=
  match rev q with
  | c :: r => if char_eqb c terminator then rev r else q
  | [] => q
  end.

Definition enforce_limit_worded {U : Unicode} (q : str) : str :=
  if negb (contains (lit "LIMIT") (upper q))
  then strip_one_terminator q ++ lit " LIMIT 10" ++ [terminator]
  else q.

(** Cut [s] at the first occurrence of [p]: what stands before it and what
    stands after it. *)
Fixpoint split_at_first (p s : str) : option (str * str) :=
  if starts_with p s then Some ([], skipn (length p) s)
  else
    match s with
    | [] => None
    | c :: s' =>
        option_map (fun ab => (c :: fst ab, snd ab)) (split_at_first p s')
    end.

(** [p] occurs in [s] right after [pre] and at no earlier position. *)
Definition first_at (p pre s : str) : Prop :=
  (exists post, s = pre ++ p ++ post) /\
  forall a b, s = a ++ p ++ b -> length pre <= length a.

(** [s] does not start with a character of the class [f]. *)
Definition not_starting (f : char -> bool) (s : str) : Prop :=
  forall c s', s = c :: s' -> f c = false.

(** The first fenced block of [text]: the first marker of the text, the
    language tag (the longest run of word characters after the marker, maybe
    empty), the longest run of whitespace after the tag, and the interior
    [body], which runs up to the next marker. *)
Definition fenced_block {U : Unicode} (text pre tag ws body post : str) : Prop :=
  text = pre ++ fence ++ tag ++ ws ++ body ++ fence ++ post /\
  first_at fence pre text /\
  forallb is_word tag = true /\
  not_starting is_word (ws ++ body ++ fence ++ post) /\
  forallb is_space ws = true /\
  not_starting is_space (body ++ fence ++ post) /\
  first_at fence body (body ++ fence ++ post).

(** An event on the store: connecting, executing, closing. *)
Definition touches_store (e : event) : bool :=
  match e with
  | Connected _ | Executed _ _ | Closed _ => true
  | _ => false
  end.

Definition is_prompted (e : event) : bool :=
  match e with
  | Prompted _ => true
  | _ => false
  end.

(** The requests sent to the language-model service, in order. *)
Fixpoint requests (tr : list event) : list request :=
  match tr with
  | [] => []
  | Requested _ rq :: tr' => rq :: requests tr'
  | _ :: tr' => requests tr'
  end.

(** The records a prompt carries in its slots. *)
Fixpoint records_sent (content : list fragment) : list record :=
  match content with
  | [] => []
  | FRecords l :: content' => l ++ records_sent content'
  | _ :: content' => records_sent content'
  end.

(** A dataset in the store: the declared columns with their types, and the
    rows. *)
Record table := {
  tb_schema : list (str * str);
  tb_rows : list (list value)
}.

(** The store's answer to [DESCRIBE] for columns declared with a name and a
    type and nothing else: one row for each column. *)
Definition describe_frame (t : table) : DataFrame :=
  {| df_columns :=
       [lit "column_name"; lit "column_type"; lit "null"; lit "key";
        lit "default"; lit "extra"];
     df_rows :=
       map (fun nt : str * str =>
              [VStr (fst nt); VStr (snd nt); VStr (lit "YES"); VNone; VNone; VNone])
           (tb_schema t) |}.

(** The store's answer to [SELECT * ... LIMIT n]: the declared columns and
    the first [n] rows. *)
Definition select_frame (n : nat) (t : table) : DataFrame :=
  {| df_columns := map fst (tb_schema t); df_rows := firstn n (tb_rows t) |}.

(** A frame describes the dataset [t]: under the label "column_name" it has
    the declared names and under "column_type" their types, one row for each
    column. Whatever else it says of a column (whether it takes nulls, its
    key, its default) is free, and so are the other labels and their
    order. *)
Definition describes (d : DataFrame) (t : table) : Prop :=
  df_col d (lit "column_name") =
  Some (map (fun nt : str * str => VStr (fst nt)) (tb_schema t)) /\
  df_col d (lit "column_type") =
  Some (map (fun nt : str * str => VStr (snd nt)) (tb_schema t)).

(** The dataset [t] is materialized in the store under [name]: the store can
    be connected to, answers [DESCRIBE] with a frame that describes [t], and
    the sample query with the declared columns and the first rows. *)
Definition materialized {X : External} (s : store) (name : str) (t : table) : Prop :=
  db_connect s = None /\
  exists d s1 s2,
    db_execute s (lit "DESCRIBE " ++ name) = (inr d, s1) /\
    describes d t /\
    db_execute s1 (lit "SELECT * FROM " ++ name ++ lit " LIMIT 3") =
    (inr (select_frame 3 t), s2).

(** ** A small world to run the program in *)

Definition demo_table : table :=
  {| tb_schema := [(lit "id", lit "INTEGER"); (lit "status", lit "VARCHAR")];
     tb_rows :=
       [[VInt 1; VStr (lit "Unknown")]; [VInt 2; VStr (lit "Active")];
        [VInt 3; VStr (lit "Active")]; [VInt 4; VStr (lit "Unknown")]] |}.

(** A store with one table that knows three statements and rejects the
    rest. *)
Definition demo_execute (t : table) (q : str) : (exn + DataFrame) * table :=
  if str_eqb q (lit "DESCRIBE uploaded_data") then (inr (describe_frame t), t)
  else if str_eqb q (lit "SELECT * FROM uploaded_data LIMIT 3")
  then (inr (select_frame 3 t), t)
  else if str_eqb q (lit "SELECT * FROM uploaded_data LIMIT 10;")
  then (inr (select_frame 10 t), t)
  else (inl (StoreError (lit "Binder Error")), t).

(** A service that answers three kinds of questions with a statement and
    every other request with a summary. *)
Definition demo_llm (n : nat) (rq : request) : exn + option str :=
  match rq_messages rq with
  | [_; {| msg_role := User; msg_content := [FStr q] |}] =>
      if str_eqb q (lit "show rows")
      then inr (Some (lit "```sql
SELECT * FROM uploaded_data
```"))
      else if str_eqb q (lit "remove everything")
      then inr (Some (lit "DROP TABLE uploaded_data"))
      else inr (Some (lit "SELECT nope FROM uploaded_data"))
  | _ => inr (Some (lit "Four rows, two of them Unknown. "))
  end.

#[export] Instance demo_external : External := {|
  store := table;
  db_connect := fun _ => None;
  db_execute := demo_execute;
  llm_create := demo_llm;
  tokens_count := fun _ => None
|}.

Definition demo_world : world :=
  {| w_store := demo_table; w_open := []; w_next := 0; w_calls := 0;
     w_trace := [] |}.

(** The same table declared with a primary key, a column that takes no
    nulls and a default, as the store describes it then. *)
Definition keyed_describe : DataFrame :=
  {| df_columns :=
       [lit "column_name"; lit "column_type"; lit "null"; lit "key";
        lit "default"; lit "extra"];
     df_rows :=
       [[VStr (lit "id"); VStr (lit "INTEGER"); VStr (lit "NO");
         VStr (lit "PRI"); VNone; VNone];
        [VStr (lit "status"); VStr (lit "VARCHAR"); VStr (lit "NO");
         VNone; VStr (lit "'Unknown'"); VNone]] |}.

Definition keyed_execute (t : table) (q : str) : (exn + DataFrame) * table :=
  if str_eqb q (lit "DESCRIBE uploaded_data") then (inr keyed_describe, t)
  else demo_execute t q.

Definition keyed_external : External := {|
  store := table;
  db_connect := fun _ => None;
  db_execute := keyed_execute;
  llm_create := demo_llm;
  tokens_count := fun _ => None
|}.

Definition keyed_world : @world keyed_external :=
  @Build_world keyed_external demo_table [] 0 0 [].

Definition demo_metadata : metadata :=
  {| md_columns := [VStr (lit "id"); VStr (lit "status")];
     md_dtypes :=
       [(VStr (lit "id"), VStr (lit "INTEGER"));
        (VStr (lit "status"), VStr (lit "VARCHAR"))];
     md_sample_rows := [] |}.

(** A statement as the loop hands it to the store: accepted by the safety
    gate, with "LIMIT" in its uppercased form. *)
Definition validated {U : Unicode} (q : str) : Prop :=
  is_safe_query q = true /\ contains (lit "LIMIT") (upper q) = true.

Definition ascii_letter (c : char) : bool :=
  (((65 <=? c) && (c <=? 90)) || ((97 <=? c) && (c <=? 122)))%N.

(** The statements of [store_table] and [verify_table]. *)
Definition drop_statement (table_name : str) : str :=
  lit "DROP TABLE IF EXISTS " ++ table_name.
Definition insert_statement (table_name : str) : str :=
  lit "INSERT INTO " ++ table_name ++ lit " SELECT * FROM temp_df".
Definition verify_statement (table_name : str) : str :=
  lit "SELECT * FROM " ++ table_name ++ lit " LIMIT 20;".

(** A step that leaves the store alone: the same store state, the same
    open connections, no statement sent. *)
Definition quiet {X : External} (w w' : world) : Prop :=
  w_store w' = w_store w /\ w_open w' = w_open w /\ w_next w' = w_next w /\
  executed (w_trace w') = executed (w_trace w).

(** A step that sends one request to the service and leaves the store
    alone. *)
Definition one_request {X : External} (rq : request) (w w' : world) : Prop :=
  quiet w w' /\ w_calls w' = S (w_calls w) /\
  requests (w_trace w') = requests (w_trace w) ++ [rq].

(** The statements of the ingestion, in the order of [process_file]. *)
Definition ingestion_statements (ddl table_name : str) : list str :=
  [drop_statement table_name; ddl; insert_statement table_name;
   verify_statement table_name].

(** ** The ingestion in the small world *)

Definition demo_loaded : LoadedFrame :=
  {| lf_columns := [(lit "id", lit "int64"); (lit "status", lit "object")];
     lf_rows := tb_rows demo_table |}.

(** A store that runs the three statements of [store_table] when the table
    definition starts with "CREATE TABLE", and rejects any other statement. *)
Definition demo_run (t : table) (q : str) : option exn * table :=
  if str_eqb q (lit "DROP TABLE IF EXISTS uploaded_data")
  then (None, {| tb_schema := []; tb_rows := [] |})
  else if starts_with (lit "CREATE TABLE") q
  then (None, {| tb_schema := tb_schema demo_table; tb_rows := [] |})
  else if str_eqb q (lit "INSERT INTO uploaded_data SELECT * FROM temp_df")
  then (None, demo_table)
  else (Some (StoreError (lit "Parser Error")), t).

#[export] Instance demo_ingest : Ingest := {|
  read_csv := fun path =>
    if str_eqb path (lit "testdata.csv") then inr demo_loaded
    else inl (lit "No such file or directory");
  read_excel := fun _ => inl (lit "No such file or directory");
  clean_data := fun df => inr df;
  db_run := demo_run;
  db_register := fun t _ _ => (None, t)
|}.

(** * Properties *)

(** ** Texts *)

Lemma char_eqb_eq (a b : char) : char_eqb a b = true <-> a = b.
Proof. apply N.eqb_eq. Qed.

Lemma char_eqb_refl (a : char) : char_eqb a a = true.
Proof. apply N.eqb_refl. Qed.

Lemma str_eqb_eq (a b : str) : str_eqb a b = true <-> a = b.
Proof.
  revert b; induction a as [|x a IH]; intros [|y b]; simpl; split; intro H;
    try reflexivity; try discriminate.
  - apply andb_true_iff in H as [H1 H2].
    apply char_eqb_eq in H1. apply IH in H2. now subst.
  - injection H as -> ->. rewrite char_eqb_refl. now apply IH.
Qed.

Lemma starts_with_iff (p s : str) :
  starts_with p s = true <-> exists b, s = p ++ b.
Proof.
  revert s; induction p as [|a p IH]; intros s; simpl.
  - split; [intros _; now exists s | reflexivity].
  - destruct s as [|c s].
    + split; [discriminate | intros [b Hb]; discriminate].
    + rewrite andb_true_iff, char_eqb_eq, IH. split.
      * intros [-> [b ->]]. now exists b.
      * intros [b Hb]. injection Hb as -> ->. split; [reflexivity | now exists b].
Qed.

Lemma starts_with_app (p b : str) : starts_with p (p ++ b) = true.
Proof. apply starts_with_iff. now exists b. Qed.

Lemma contains_iff (p s : str) : contains p s = true <-> occurs p s.
Proof.
  induction s as [|c s IH].
  - simpl. rewrite orb_false_r, starts_with_iff. split.
    + intros [b Hb]. now exists [], b.
    + intros [a [b Hab]]. destruct a; [now exists b | discriminate].
  - simpl. rewrite orb_true_iff, starts_with_iff, IH. split.
    + intros [[b Hb] | [a [b Hab]]].
      * now exists [], b.
      * exists (c :: a), b. simpl. now f_equal.
    + intros [[|x a] [b Hab]].
      * left. now exists b.
      * right. injection Hab as -> ->. now exists a, b.
Qed.

Lemma contains_app_l (p a b : str) :
  contains p a = true -> contains p (a ++ b) = true.
Proof.
  rewrite !contains_iff. intros [x [y ->]].
  exists x, (y ++ b). now rewrite <- !app_assoc.
Qed.

Lemma contains_app_r (p a b : str) :
  contains p b = true -> contains p (a ++ b) = true.
Proof.
  rewrite !contains_iff. intros [x [y ->]].
  exists (a ++ x), y. now rewrite <- !app_assoc.
Qed.

Lemma contains_false_app_l (p a b : str) :
  contains p (a ++ b) = false -> contains p a = false.
Proof.
  intros H. destruct (contains p a) eqn:E; [|reflexivity].
  apply contains_app_l with (b := b) in E. congruence.
Qed.

(** A character that is not in [p] cuts every occurrence of [p]. *)
Lemma starts_with_sep (p x b : str) (c : char) :
  char_in c p = false -> starts_with p (x ++ c :: b) = starts_with p x.
Proof.
  revert x; induction p as [|a p IH]; intros x Hc; [reflexivity|].
  unfold char_in in Hc. simpl in Hc. apply orb_false_iff in Hc as [Hca Hcp].
  destruct x as [|d x]; simpl.
  - unfold char_eqb in *. rewrite N.eqb_sym, Hca. reflexivity.
  - rewrite (IH x Hcp). reflexivity.
Qed.

Lemma contains_sep (p a b : str) (c : char) :
  char_in c p = false ->
  contains p (a ++ c :: b) = contains p a || contains p b.
Proof.
  intros Hc. induction a as [|d a IH].
  - pose proof (starts_with_sep p [] b c Hc) as H. simpl app in *.
    cbn [contains]. rewrite H. now rewrite orb_false_r.
  - pose proof (starts_with_sep p (d :: a) b c Hc) as H. simpl app in *.
    cbn [contains]. rewrite IH, H. now rewrite orb_assoc.
Qed.

Lemma count_sub_sep (p a b : str) (c : char) :
  p <> [] -> char_in c p = false ->
  count_sub p (a ++ c :: b) = count_sub p a + count_sub p b.
Proof.
  intros Hp Hc. induction a as [|d a IH].
  - pose proof (starts_with_sep p [] b c Hc) as H. simpl app in *.
    cbn [count_sub]. rewrite H. destruct p; [congruence | reflexivity].
  - pose proof (starts_with_sep p (d :: a) b c Hc) as H. simpl app in *.
    cbn [count_sub]. rewrite IH, H. lia.
Qed.

Lemma count_sub_zero (p s : str) : contains p s = false -> count_sub p s = 0.
Proof.
  induction s as [|c s IH]; simpl; intros H; apply orb_false_iff in H as [H1 H2].
  - now rewrite H1.
  - rewrite H1, (IH H2). reflexivity.
Qed.

(** [rstrip] keeps a prefix and drops only characters of the set. *)
Lemma rstrip_chars_split (cs s : str) :
  exists t, s = rstrip_chars cs s ++ t /\ forallb (fun c => char_in c cs) t = true.
Proof.
  induction s as [|c s [t [Hs Ht]]]; simpl.
  - now exists [].
  - destruct (rstrip_chars cs s) as [|d r] eqn:E.
    + destruct (char_in c cs) eqn:Hc.
      * exists (c :: s). split; [reflexivity|]. simpl. rewrite Hc. simpl.
        simpl in Hs. now subst t.
      * exists t. simpl in Hs. simpl. split; [now f_equal | assumption].
    + exists t. split; [|assumption]. simpl. f_equal. exact Hs.
Qed.

Lemma rstrip_chars_last (cs s r : str) (c : char) :
  rstrip_chars cs s = r ++ [c] -> char_in c cs = false.
Proof.
  revert r; induction s as [|d s IH]; intros r; simpl.
  - destruct r; discriminate.
  - destruct (rstrip_chars cs s) as [|e r'] eqn:E.
    + destruct (char_in d cs) eqn:Hd.
      * destruct r; discriminate.
      * intros H. destruct r as [|x [|y r]]; try discriminate.
        injection H as ->. exact Hd.
    + intros H. destruct r as [|x r].
      * discriminate.
      * injection H as _ H. exact (IH r H).
Qed.

Lemma forallb_single (c : char) (t : str) :
  forallb (fun x => char_in x [c]) t = true -> t = repeat c (length t).
Proof.
  induction t as [|x t IH]; simpl; intros H; [reflexivity|].
  apply andb_true_iff in H as [Hx Ht].
  unfold char_in in Hx. simpl in Hx. rewrite orb_false_r in Hx.
  apply char_eqb_eq in Hx. subst x. f_equal. now apply IH.
Qed.

(** ** Safety gate and limit enforcer *)

Section GuardrailFacts.
Context {U : Unicode}.

Lemma upper_app (a b : str) : upper (a ++ b) = upper a ++ upper b.
Proof. apply flat_map_app. Qed.

Lemma upper_ascii (s : str) :
  forallb is_ascii s = true -> upper s = map ascii_upper s.
Proof.
  induction s as [|c s IH]; simpl; intros H; [reflexivity|].
  apply andb_true_iff in H as [Hc Hs].
  rewrite (to_upper_full_ascii c Hc), (IH Hs). reflexivity.
Qed.

Lemma occurs_upper (a s b : str) : occurs (upper s) (upper (a ++ s ++ b)).
Proof. exists (upper a), (upper b). now rewrite !upper_app. Qed.

Lemma existsb_false_iff {A} (f : A -> bool) (l : list A) :
  existsb f l = false <-> forall x, In x l -> f x = false.
Proof.
  induction l as [|y l IH]; simpl.
  - split; [intros _ x [] | reflexivity].
  - rewrite orb_false_iff, IH. split.
    + intros [Hy Hl] x [<- | Hx]; auto.
    + intros H. split; [apply H; now left | intros x Hx; apply H; now right].
Qed.

Lemma is_safe_query_true (q : str) :
  is_safe_query q = true <->
  forall kw, In kw forbidden -> contains kw (upper q) = false.
Proof.
  unfold is_safe_query. rewrite negb_true_iff. apply existsb_false_iff.
Qed.

Lemma is_safe_query_false (q : str) :
  is_safe_query q = false <->
  exists kw, In kw forbidden /\ contains kw (upper q) = true.
Proof.
  unfold is_safe_query. rewrite negb_false_iff. apply existsb_exists.
Qed.

(** A keyword has no space in it and occurs neither in "LIMIT" nor in the
    digits of the default bound. *)
Lemma forbidden_apart (kw : str) :
  In kw forbidden ->
  char_in 32%N kw = false /\
  contains kw (lit "LIMIT") = false /\
  contains kw (lit "10;") = false.
Proof.
  intros H. simpl in H.
  repeat (destruct H as [<- | H]; [repeat split; reflexivity|]).
  destruct H.
Qed.

Lemma limit_clause_default :
  lit " LIMIT " ++ str_of_int default_limit ++ lit ";" = lit " LIMIT 10;".
Proof. reflexivity. Qed.

Lemma upper_limit_clause :
  upper (lit " LIMIT 10;") = 32%N :: lit "LIMIT" ++ 32%N :: lit "10;".
Proof. rewrite upper_ascii; reflexivity. Qed.

Lemma enforce_limit_unbounded (q : str) (n : Z) :
  contains (lit "LIMIT") (upper q) = false ->
  enforce_limit q n =
  rstrip_chars [terminator] q ++ lit " LIMIT " ++ str_of_int n ++ lit ";".
Proof. intros H. unfold enforce_limit. rewrite H. reflexivity. Qed.

Lemma enforce_limit_bounded (q : str) (n : Z) :
  contains (lit "LIMIT") (upper q) = true -> enforce_limit q n = q.
Proof. intros H. unfold enforce_limit. rewrite H. reflexivity. Qed.

(** Whatever the bound, the output of the enforcer has "LIMIT" in it. *)
Lemma enforce_limit_has_limit (q : str) (n : Z) :
  contains (lit "LIMIT") (upper (enforce_limit q n)) = true.
Proof.
  destruct (contains (lit "LIMIT") (upper q)) eqn:E.
  - now rewrite enforce_limit_bounded.
  - rewrite enforce_limit_unbounded by assumption.
    rewrite upper_app. apply contains_app_r.
    rewrite upper_app. apply contains_app_l.
    rewrite upper_ascii; reflexivity.
Qed.

Lemma upper_rstrip_prefix (cs q : str) :
  exists t, upper q = upper (rstrip_chars cs q) ++ t.
Proof.
  destruct (rstrip_chars_split cs q) as [t [Hq _]].
  exists (upper t). rewrite <- upper_app, <- Hq. reflexivity.
Qed.

Lemma contains_upper_rstrip (p cs q : str) :
  contains p (upper q) = false ->
  contains p (upper (rstrip_chars cs q)) = false.
Proof.
  intros H. destruct (upper_rstrip_prefix cs q) as [t Ht].
  rewrite Ht in H. exact (contains_false_app_l _ _ _ H).
Qed.

(** C9. The limit enforcer is idempotent at the default bound: its output
    always has "LIMIT" in its uppercased form, so a second application leaves
    it as it is. *)
Theorem enforce_limit_idempotent (q : str) :
  contains (lit "LIMIT") (upper (enforce_limit q default_limit)) = true /\
  enforce_limit (enforce_limit q default_limit) default_limit =
  enforce_limit q default_limit.
Proof.
  pose proof (enforce_limit_has_limit q default_limit) as H.
  split; [exact H | now apply enforce_limit_bounded].
Qed.

(** C10. The limit enforcer keeps what the safety gate accepted: the clause
    it appends brings no forbidden keyword, and none can straddle the space
    in front of it. *)
Theorem enforce_limit_preserves_safety (q : str) :
  is_safe_query q = true ->
  is_safe_query (enforce_limit q default_limit) = true.
Proof.
  intros Hsafe.
  destruct (contains (lit "LIMIT") (upper q)) eqn:E.
  - now rewrite enforce_limit_bounded.
  - rewrite enforce_limit_unbounded, limit_clause_default by assumption.
    rewrite is_safe_query_true in *.
    intros kw Hkw. destruct (forbidden_apart kw Hkw) as [Hsp [Hl Hd]].
    rewrite upper_app, upper_limit_clause.
    rewrite contains_sep by assumption.
    rewrite contains_sep by assumption.
    rewrite Hl, Hd, (contains_upper_rstrip _ _ _ (Hsafe kw Hkw)).
    reflexivity.
Qed.

Lemma strip_one_terminator_snoc (r : str) (c : char) :
  strip_one_terminator (r ++ [c]) =
  if char_eqb c terminator then r else r ++ [c].
Proof.
  unfold strip_one_terminator. rewrite rev_unit.
  destruct (char_eqb c terminator); [apply rev_involutive | reflexivity].
Qed.

(** Read with the words of the specification, the enforcer is the code on
    every text that does not end in two terminators. *)
Lemma enforce_limit_worded_agrees (q : str) :
  (forall r, q <> r ++ [terminator; terminator]) ->
  enforce_limit q default_limit = enforce_limit_worded q.
Proof.
  intros Hq. unfold enforce_limit_worded.
  destruct (contains (lit "LIMIT") (upper q)) eqn:E; cbn [negb].
  - now apply enforce_limit_bounded.
  - rewrite enforce_limit_unbounded, limit_clause_default by assumption.
    change (lit " LIMIT 10;") with (lit " LIMIT 10" ++ [terminator]).
    f_equal.
    assert (Hlast : forall r c, rstrip_chars [terminator] q = r ++ [c] ->
                            char_eqb c terminator = false).
    { intros r c Hr. apply rstrip_chars_last in Hr.
      unfold char_in in Hr. simpl in Hr. now rewrite orb_false_r in Hr. }
    destruct (rstrip_chars_split [terminator] q) as [t [Hs Ht]].
    apply forallb_single in Ht.
    revert Hs Hlast. generalize (rstrip_chars [terminator] q) as body.
    intros body Hs Hlast.
    destruct (length t) as [|[|k]]; subst t; [cbn [repeat] in Hs ..|].
    + rewrite app_nil_r in Hs. subst q.
      destruct body as [|x l _] using rev_ind; [reflexivity|].
      now rewrite strip_one_terminator_snoc, (Hlast l x eq_refl).
    + subst q. rewrite strip_one_terminator_snoc.
      now rewrite char_eqb_refl.
    + destruct (Hq (body ++ repeat terminator k)).
      rewrite Hs. rewrite <- app_assoc. f_equal.
      change [terminator; terminator] with (repeat terminator 2).
      rewrite <- repeat_app. f_equal. lia.
Qed.

Lemma forallb_app_inv {A} (f : A -> bool) (a b : list A) :
  forallb f (a ++ b) = true -> forallb f a = true /\ forallb f b = true.
Proof. rewrite forallb_app. apply andb_true_iff. Qed.

(** C1. The safety gate rejects a text exactly when one of the keywords
    INSERT, UPDATE, DELETE, DROP, ALTER, CREATE occurs, at any position, in
    the uppercased text; in particular it rejects every text with a part
    whose uppercase is one of the six, and it accepts a text with none. On an
    ASCII text that is: some part of the text spells one of the six up to the
    case of its letters. The gate only answers true or false; the text itself
    is not touched. *)
Theorem is_safe_query_rejects_keywords (q : str) :
  (is_safe_query q = false <->
   exists kw,
     In kw [lit "INSERT"; lit "UPDATE"; lit "DELETE";
            lit "DROP"; lit "ALTER"; lit "CREATE"] /\
     occurs kw (upper q)) /\
  (is_safe_query q = true <->
   forall kw,
     In kw [lit "INSERT"; lit "UPDATE"; lit "DELETE";
            lit "DROP"; lit "ALTER"; lit "CREATE"] ->
     ~ occurs kw (upper q)) /\
  (forall kw a s b,
     In kw [lit "INSERT"; lit "UPDATE"; lit "DELETE";
            lit "DROP"; lit "ALTER"; lit "CREATE"] ->
     q = a ++ s ++ b -> upper s = kw ->
     is_safe_query q = false) /\
  (forallb is_ascii q = true ->
   (is_safe_query q = false <->
    exists kw a s b,
      In kw [lit "INSERT"; lit "UPDATE"; lit "DELETE";
            lit "DROP"; lit "ALTER"; lit "CREATE"] /\
      q = a ++ s ++ b /\ map ascii_upper s = kw)).
Proof.
  fold forbidden.
  assert (Hrej : is_safe_query q = false <->
                 exists kw, In kw forbidden /\ occurs kw (upper q)).
  { rewrite is_safe_query_false. split; intros [kw [Hkw H]]; exists kw;
      (split; [assumption | now apply contains_iff]). }
  assert (Hpart : forall kw a s b,
             In kw forbidden -> q = a ++ s ++ b -> upper s = kw ->
             is_safe_query q = false).
  { intros kw a s b Hkw -> <-. apply Hrej. exists (upper s).
    split; [assumption | apply occurs_upper]. }
  split; [exact Hrej|]. split; [|split; [exact Hpart|]].
  - split.
    + intros Hacc kw Hkw Hocc.
      assert (is_safe_query q = false) by (apply Hrej; eauto). congruence.
    + intros Hnone. apply not_false_is_true. intros E.
      apply Hrej in E as [kw [Hkw Hocc]]. now destruct (Hnone kw Hkw).
  - intros Hascii. split.
    + intros Hq. apply Hrej in Hq as [kw [Hkw [x [y Hxy]]]].
      rewrite (upper_ascii q Hascii) in Hxy.
      apply map_eq_app in Hxy as [a [rest [-> [_ Hrest]]]].
      apply map_eq_app in Hrest as [s [b [-> [Hs _]]]].
      now exists kw, a, s, b.
    + intros [kw [a [s [b [Hkw [Hq Hs]]]]]].
      apply (Hpart kw a s b Hkw Hq).
      subst q. apply forallb_app_inv in Hascii as [_ H].
      apply forallb_app_inv in H as [H _].
      now rewrite upper_ascii.
Qed.

(** C2, as the code has it. A text without "LIMIT" in its uppercased form
    loses every trailing terminator, however many there are, and gets the
    clause " LIMIT 10" and one terminator, so that "LIMIT" occurs exactly once
    in the uppercased output; the text before the trailing terminators is kept
    as it is. A text with "LIMIT" in its uppercased form comes back
    unchanged. *)
Theorem enforce_limit_strips_all_then_bounds (q : str) :
  (contains (lit "LIMIT") (upper q) = false ->
   exists body k,
     q = body ++ repeat terminator k /\
     (forall r c, body = r ++ [c] -> c <> terminator) /\
     enforce_limit q default_limit = body ++ lit " LIMIT 10" ++ [terminator] /\
     count_sub (lit "LIMIT") (upper (enforce_limit q default_limit)) = 1) /\
  (contains (lit "LIMIT") (upper q) = true ->
   enforce_limit q default_limit = q).
Proof.
  split; [|apply enforce_limit_bounded].
  intros H.
  destruct (rstrip_chars_split [terminator] q) as [t [Hq Ht]].
  exists (rstrip_chars [terminator] q), (length t).
  rewrite enforce_limit_unbounded, limit_clause_default by assumption.
  repeat split.
  - rewrite <- (forallb_single _ _ Ht). exact Hq.
  - intros r c Hr ->. apply rstrip_chars_last in Hr. discriminate.
  - rewrite upper_app, upper_limit_clause.
    rewrite !count_sub_sep by (discriminate || reflexivity).
    rewrite (count_sub_zero _ _ (contains_upper_rstrip _ _ _ H)).
    reflexivity.
Qed.

End GuardrailFacts.

Lemma enforce_limit_preserves_safety_witness :
  is_safe_query (lit "SELECT name FROM uploaded_data WHERE status = 'Unknown';") = true /\
  is_safe_query
    (enforce_limit (lit "SELECT name FROM uploaded_data WHERE status = 'Unknown';")
       default_limit) = true.
Proof.
  split; [reflexivity|].
  apply (@enforce_limit_preserves_safety ascii_tables). reflexivity.
Defined.

(** C2, as worded, fails on a text that ends in two terminators: the code
    strips both, the wording strips one and keeps the other in place. *)
Lemma enforce_limit_two_terminators :
  enforce_limit (lit "SELECT 1;;") default_limit = lit "SELECT 1 LIMIT 10;" /\
  enforce_limit_worded (lit "SELECT 1;;") = lit "SELECT 1; LIMIT 10;" /\
  enforce_limit (lit "SELECT 1;;") default_limit <>
  enforce_limit_worded (lit "SELECT 1;;").
Proof.
  repeat split; try reflexivity.
  intros H. vm_compute in H. discriminate.
Qed.

(** ** Markdown fence extractor *)

Lemma skipn_length_app (p b : str) : skipn (length p) (p ++ b) = b.
Proof. induction p; simpl; auto. Qed.

Lemma firstn_length_app (p b : str) : firstn (length p) (p ++ b) = p.
Proof. induction p; simpl; [reflexivity | now f_equal]. Qed.

Lemma app_same_length (a a' x x' : str) :
  a ++ x = a' ++ x' -> length a = length a' -> a = a' /\ x = x'.
Proof.
  revert a'; induction a as [|c a IH]; intros [|c' a'] H Hl;
    simpl in *; try discriminate; [now split|].
  injection H as -> H. injection Hl as Hl.
  destruct (IH a' H Hl) as [-> ->]. now split.
Qed.

Lemma split_at_first_eq (p s : str) :
  split_at_first p s =
  if starts_with p s then Some ([], skipn (length p) s)
  else
    match s with
    | [] => None
    | c :: s' =>
        option_map (fun ab => (c :: fst ab, snd ab)) (split_at_first p s')
    end.
Proof. destruct s; reflexivity. Qed.

Lemma starts_with_skipn (p s : str) :
  starts_with p s = true -> s = p ++ skipn (length p) s.
Proof.
  intros H. apply starts_with_iff in H as [y ->]. now rewrite skipn_length_app.
Qed.

Lemma starts_with_firstn (p s : str) :
  starts_with p s = true -> firstn (length p) s = p.
Proof.
  intros H. apply starts_with_iff in H as [y ->]. apply firstn_length_app.
Qed.

Lemma first_at_here (p s : str) : starts_with p s = true -> first_at p [] s.
Proof.
  intros H. split; [|intros; simpl; lia].
  exists (skipn (length p) s). now apply starts_with_skipn.
Qed.

Lemma split_at_first_some (p s a b : str) :
  split_at_first p s = Some (a, b) -> first_at p a s /\ s = a ++ p ++ b.
Proof.
  revert a b; induction s as [|c s IH]; intros a b; rewrite split_at_first_eq;
    destruct (starts_with p _) eqn:E.
  - intros H. injection H as <- <-.
    split; [now apply first_at_here | now apply starts_with_skipn].
  - discriminate.
  - intros H. injection H as <- <-.
    split; [now apply first_at_here | now apply starts_with_skipn].
  - destruct (split_at_first p s) as [[a0 b0]|] eqn:F; [|discriminate].
    simpl. intros H. injection H as <- <-.
    destruct (IH a0 b0 eq_refl) as [[_ Hmin] Hs]. subst s.
    split; [|reflexivity]. split; [now exists b0|].
    intros [|x a'] b' H'.
    + assert (starts_with p (c :: a0 ++ p ++ b0) = true)
        by (apply starts_with_iff; now exists b').
      congruence.
    + injection H' as _ H'. simpl. apply Hmin in H'. lia.
Qed.

Lemma split_at_first_none (p s : str) :
  split_at_first p s = None -> contains p s = false.
Proof.
  induction s as [|c s IH]; rewrite split_at_first_eq;
    destruct (starts_with p _) eqn:E; try discriminate; simpl; rewrite E.
  - reflexivity.
  - destruct (split_at_first p s); [discriminate|]. intros _. now apply IH.
Qed.

Lemma split_at_first_of_first (p pre post s : str) :
  s = pre ++ p ++ post -> first_at p pre s ->
  split_at_first p s = Some (pre, post).
Proof.
  intros Hs [_ Hmin].
  destruct (split_at_first p s) as [[a b]|] eqn:E.
  - apply split_at_first_some in E as [[_ Hmin'] Ha].
    pose proof (Hmin _ _ Ha). pose proof (Hmin' _ _ Hs).
    rewrite Ha in Hs. apply app_same_length in Hs as [-> Hs]; [|lia].
    apply app_inv_head in Hs. now subst.
  - apply split_at_first_none in E.
    assert (contains p s = true) by (apply contains_iff; now exists pre, post).
    congruence.
Qed.

Lemma split_at_first_occurs (p s : str) :
  occurs p s -> exists a b, split_at_first p s = Some (a, b).
Proof.
  intros H. destruct (split_at_first p s) as [[a b]|] eqn:E; [now exists a, b|].
  apply split_at_first_none in E. apply contains_iff in H. congruence.
Qed.

Lemma take_drop_while (f : char -> bool) (s : str) :
  s = take_while f s ++ drop_while f s.
Proof.
  induction s as [|c s IH]; simpl; [reflexivity|].
  destruct (f c); simpl; [now f_equal | reflexivity].
Qed.

Lemma take_while_all (f : char -> bool) (s : str) :
  forallb f (take_while f s) = true.
Proof.
  induction s as [|c s IH]; simpl; [reflexivity|].
  destruct (f c) eqn:E; simpl; [now rewrite E | reflexivity].
Qed.

Lemma drop_while_not_starting (f : char -> bool) (s : str) :
  not_starting f (drop_while f s).
Proof.
  induction s as [|c s IH]; simpl.
  - intros x s' H. discriminate.
  - destruct (f c) eqn:E; [exact IH|].
    intros x s' H. injection H as <- _. exact E.
Qed.

Lemma take_drop_while_app (f : char -> bool) (a r : str) :
  forallb f a = true -> not_starting f r ->
  take_while f (a ++ r) = a /\ drop_while f (a ++ r) = r.
Proof.
  intros Ha Hr. induction a as [|c a IH]; simpl in *.
  - destruct r as [|x r]; [now split|].
    simpl. rewrite (Hr x r eq_refl). now split.
  - apply andb_true_iff in Ha as [Hc Ha]. rewrite Hc.
    destruct (IH Ha) as [-> ->]. now split.
Qed.

(** Dropping characters that are not backquotes loses no marker. *)
Lemma occurs_drop_while (f : char -> bool) (p s : str) (q : char) :
  f q = false -> occurs (q :: p) s -> occurs (q :: p) (drop_while f s).
Proof.
  intros Hq. induction s as [|c s IH]; intros [a [b H]].
  - destruct a; discriminate.
  - simpl. destruct (f c) eqn:E; [|now exists a, b].
    destruct a as [|x a].
    + injection H as -> _. congruence.
    + injection H as _ H. apply IH. now exists a, b.
Qed.

Lemma greedy_runs_hd (f : char -> bool) (s : str) :
  exists tl, greedy_runs f s = (take_while f s, drop_while f s) :: tl.
Proof.
  induction s as [|c s [tl IH]]; simpl.
  - now exists [].
  - destruct (f c).
    + rewrite IH. simpl. eexists; reflexivity.
    + now exists [].
Qed.

Lemma greedy_runs_sound (f : char -> bool) (s u r : str) :
  In (u, r) (greedy_runs f s) -> s = u ++ r.
Proof.
  revert u r; induction s as [|c s IH]; simpl; intros u r H.
  - destruct H as [H|[]]. now injection H as <- <-.
  - destruct (f c).
    + apply in_app_iff in H as [H|[H|[]]].
      * apply in_map_iff in H as [[u' r'] [H1 H2]]. simpl in H1.
        injection H1 as <- <-. simpl. f_equal. now apply IH.
      * now injection H as <- <-.
    + destruct H as [H|[]]. now injection H as <- <-.
Qed.

Lemma lazy_runs_sound (f : char -> bool) (s u r : str) :
  In (u, r) (lazy_runs f s) -> s = u ++ r.
Proof.
  revert u r; induction s as [|c s IH]; simpl; intros u r [H|H];
    try (now injection H as <- <-); try (now destruct H).
  destruct (f c); [|now destruct H].
  apply in_map_iff in H as [[u' r'] [H1 H2]]. simpl in H1.
  injection H1 as <- <-. simpl. f_equal. now apply IH.
Qed.

(** What the matcher consumes and what it leaves make up the text. *)
Lemma run_sound (r : regex) (s u : str) (g : option str) (rest : str) :
  In (u, g, rest) (run r s) -> s = u ++ rest.
Proof.
  revert s u g rest; induction r as [l|r1 IH1 r2 IH2|r1 IH1|f|f|f|r1 IH1];
    intros s u g rest H; simpl in H.
  - destruct (starts_with l s); [|now destruct H].
    destruct H as [H|[]]. injection H as <- _ <-.
    symmetry. apply firstn_skipn.
  - apply in_flat_map in H as [[[u1 g1] s1] [H1 H]].
    apply in_map_iff in H as [[[u2 g2] s2] [E H2]].
    injection E as <- _ <-.
    rewrite (IH1 _ _ _ _ H1), (IH2 _ _ _ _ H2). now rewrite app_assoc.
  - apply in_app_iff in H as [H|[H|[]]].
    + now apply IH1 in H.
    + now injection H as <- _ <-.
  - destruct s as [|c s]; [now destruct H|].
    destruct (f c); [|now destruct H].
    apply in_map_iff in H as [[u' r'] [E H]]. simpl in E.
    injection E as <- _ <-. simpl. f_equal. now apply greedy_runs_sound in H.
  - apply in_map_iff in H as [[u' r'] [E H]]. unfold ungrouped in E. simpl in E.
    injection E as <- _ <-. now apply greedy_runs_sound in H.
  - apply in_map_iff in H as [[u' r'] [E H]]. unfold ungrouped in E. simpl in E.
    injection E as <- _ <-. now apply lazy_runs_sound in H.
  - apply in_map_iff in H as [[[u' g'] r'] [E H]].
    injection E as <- _ <-. now apply IH1 in H.
Qed.

Lemma run_lit_inv (l s u : str) (g : option str) (rest : str) :
  In (u, g, rest) (run (Lit l) s) -> u = l /\ s = l ++ rest.
Proof.
  simpl. destruct (starts_with l s) eqn:E; [|now intros []].
  intros [H|[]]. injection H as <- _ <-.
  apply starts_with_iff in E as [b ->].
  now rewrite firstn_length_app, skipn_length_app.
Qed.

Lemma run_seq_inv (r1 r2 : regex) (s u : str) (g : option str) (rest : str) :
  In (u, g, rest) (run (Seq r1 r2) s) ->
  exists u1 g1 s1 u2 g2,
    In (u1, g1, s1) (run r1 s) /\ In (u2, g2, rest) (run r2 s1) /\ u = u1 ++ u2.
Proof.
  simpl. intros H.
  apply in_flat_map in H as [[[u1 g1] s1] [H1 H]].
  apply in_map_iff in H as [[[u2 g2] s2] [E H2]].
  injection E as <- _ <-. now exists u1, g1, s1, u2, g2.
Qed.

Lemma run_lit_app (l b : str) : run (Lit l) (l ++ b) = [(l, None, b)].
Proof.
  simpl. now rewrite starts_with_app, firstn_length_app, skipn_length_app.
Qed.

Lemma run_seq_hd {r1 r2 : regex} {s u1 s1 u2 s2 : str} {g1 g2 : option str}
      {tl1 tl2 : list attempt} :
  run r1 s = (u1, g1, s1) :: tl1 ->
  run r2 s1 = (u2, g2, s2) :: tl2 ->
  exists tl,
    run (Seq r1 r2) s =
    (u1 ++ u2, match g2 with Some _ => g2 | None => g1 end, s2) :: tl.
Proof.
  intros H1 H2. simpl. rewrite H1. simpl. rewrite H2. simpl.
  eexists; reflexivity.
Qed.

Lemma run_opt_plus_hd (f : char -> bool) (s : str) :
  exists tl, run (Opt (Plus f)) s = (take_while f s, None, drop_while f s) :: tl.
Proof.
  destruct s as [|c s]; simpl.
  - now exists [].
  - destruct (f c).
    + destruct (greedy_runs_hd f s) as [tl ->]. simpl. eexists; reflexivity.
    + now exists [].
Qed.

Lemma run_star_hd (f : char -> bool) (s : str) :
  exists tl, run (Star f) s = (take_while f s, None, drop_while f s) :: tl.
Proof.
  simpl. destruct (greedy_runs_hd f s) as [tl ->]. simpl.
  eexists; reflexivity.
Qed.

(** The lazy group followed by a literal: one candidate for each split of the
    text, shortest group first, kept when the literal follows. *)
Lemma run_lazy_group_lit (l s : str) :
  run (Seq (Group (LazyStar any_char)) (Lit l)) s =
  flat_map
    (fun ur : str * str =>
       if starts_with l (snd ur)
       then [(fst ur ++ firstn (length l) (snd ur), Some (fst ur),
              skipn (length l) (snd ur))]
       else [])
    (lazy_runs any_char s).
Proof.
  cbn [run]. generalize (lazy_runs any_char s) as runs.
  induction runs as [|[u r] runs IH]; [reflexivity|].
  cbn [map flat_map ungrouped fst snd]. rewrite IH.
  destruct (starts_with l r); reflexivity.
Qed.

Lemma lazy_group_lit_hd (l : str) :
  forall s pre body post,
    split_at_first l s = Some (body, post) ->
    exists tl,
      flat_map
        (fun ur : str * str =>
           if starts_with l (snd ur)
           then [(fst ur ++ firstn (length l) (snd ur), Some (fst ur),
                  skipn (length l) (snd ur))]
           else [])
        (map (fun ur : str * str => (pre ++ fst ur, snd ur)) (lazy_runs any_char s)) =
      (pre ++ body ++ l, Some (pre ++ body), post) :: tl.
Proof.
  induction s as [|c s IH]; intros pre body post; rewrite split_at_first_eq;
    destruct (starts_with l _) eqn:E.
  - intros H. injection H as <- <-. cbn [lazy_runs map flat_map fst snd].
    rewrite E, (starts_with_firstn _ _ E), <- app_assoc.
    eexists; reflexivity.
  - discriminate.
  - intros H. injection H as <- <-. cbn [lazy_runs map flat_map fst snd].
    rewrite E, (starts_with_firstn _ _ E), <- app_assoc.
    eexists; reflexivity.
  - destruct (split_at_first l s) as [[b0 p0]|] eqn:F; [|discriminate].
    cbn [option_map fst snd]. intros H. injection H as <- <-.
    cbn [lazy_runs any_char map flat_map fst snd]. rewrite E.
    rewrite map_map. cbn [fst snd app].
    destruct (IH (pre ++ [c]) b0 p0 eq_refl) as [tl Htl].
    exists tl. etransitivity; [|etransitivity; [exact Htl|]].
    + f_equal. apply map_ext. intros [u r]. cbn [fst snd].
      now rewrite <- app_assoc.
    + rewrite <- !app_assoc. reflexivity.
Qed.

Lemma run_lazy_group_lit_hd (l s body post : str) :
  split_at_first l s = Some (body, post) ->
  exists tl,
    run (Seq (Group (LazyStar any_char)) (Lit l)) s =
    (body ++ l, Some body, post) :: tl.
Proof.
  intros H. rewrite run_lazy_group_lit.
  destruct (lazy_group_lit_hd l s [] body post H) as [tl Htl].
  exists tl. etransitivity; [|exact Htl]. f_equal.
  rewrite <- (map_id (lazy_runs any_char s)) at 1.
  apply map_ext. now intros [u r].
Qed.

Lemma re_search_hd (r : regex) (s : str) (m : attempt) (tl : list attempt) :
  run r s = m :: tl -> re_search r s = Some m.
Proof. intros H. destruct s; simpl; rewrite H; reflexivity. Qed.

Lemma re_search_step (r : regex) (c : char) (s : str) :
  run r (c :: s) = [] -> re_search r (c :: s) = re_search r s.
Proof. intros H. simpl. rewrite H. reflexivity. Qed.

Lemma re_search_none (r : regex) (s : str) :
  (forall a t, s = a ++ t -> run r t = []) -> re_search r s = None.
Proof.
  induction s as [|c s IH]; intros H.
  - simpl. now rewrite (H [] [] eq_refl).
  - rewrite re_search_step by (now apply (H [])).
    apply IH. intros a t ->. now apply (H (c :: a)).
Qed.

(** A marker after a marker: whatever stands in front, the second one lies
    behind the first. *)
Lemma occurs_behind (p s1 a x rest : str) :
  p ++ s1 = a ++ p ++ x ++ p ++ rest -> occurs p s1.
Proof.
  intros H.
  replace (a ++ p ++ x ++ p ++ rest) with ((a ++ p ++ x) ++ p ++ rest) in H
    by (now rewrite <- !app_assoc).
  apply app_eq_app in H as [l [[Hp Hr] | [Hy ->]]].
  - assert (Hl : length l = 0).
    { apply (f_equal (@length char)) in Hp. rewrite !length_app in Hp. lia. }
    apply length_zero_iff_nil in Hl. subst l. simpl in Hr. subst s1.
    now exists [], rest.
  - now exists l, rest.
Qed.

Section FenceFacts.
Context {U : Unicode}.

Lemma is_word_backquote : is_word 96%N = false.
Proof. unfold is_word. now rewrite is_alnum_ascii. Qed.

Lemma is_space_backquote : is_space 96%N = false.
Proof. now rewrite is_space_ascii. Qed.

Lemma occurs_after_tag (s : str) : occurs fence s -> occurs fence (drop_while is_space (drop_while is_word s)).
Proof.
  intros H. change fence with (96%N :: [96%N; 96%N]) in *.
  apply occurs_drop_while; [apply is_space_backquote|].
  apply occurs_drop_while; [apply is_word_backquote|]. exact H.
Qed.

Lemma run_pattern_not_fence (s : str) :
  starts_with fence s = false -> run pattern s = [].
Proof. intros H. unfold pattern. cbn [run]. now rewrite H. Qed.

Lemma run_pattern_hd (s1 body post : str) :
  split_at_first fence (drop_while is_space (drop_while is_word s1)) = Some (body, post) ->
  exists u tl, run pattern (fence ++ s1) = (u, Some body, post) :: tl.
Proof.
  intros H.
  destruct (run_lazy_group_lit_hd _ _ _ _ H) as [tl4 H4].
  destruct (run_star_hd is_space (drop_while is_word s1)) as [tl3 H3].
  destruct (run_opt_plus_hd is_word s1) as [tl2 H2].
  destruct (run_seq_hd H3 H4) as [tl34 H34].
  destruct (run_seq_hd H2 H34) as [tl234 H234].
  destruct (run_seq_hd (run_lit_app fence s1) H234) as [tl' H'].
  unfold pattern. rewrite H'. eexists _, _; reflexivity.
Qed.

Lemma run_pattern_sound (s : str) (m : attempt) :
  In m (run pattern s) -> exists x rest, s = fence ++ x ++ fence ++ rest.
Proof.
  destruct m as [[u g] rest]. unfold pattern. intros H.
  pose proof (run_sound _ _ _ _ _ H) as Hs.
  apply run_seq_inv in H as (u1 & g1 & s1 & u2 & g2 & H1 & H2 & ->).
  apply run_lit_inv in H1 as [-> _].
  apply run_seq_inv in H2 as (u3 & g3 & s3 & u4 & g4 & _ & H4 & ->).
  apply run_seq_inv in H4 as (u5 & g5 & s5 & u6 & g6 & _ & H6 & ->).
  apply run_seq_inv in H6 as (u7 & g7 & s7 & u8 & g8 & _ & H8 & ->).
  apply run_lit_inv in H8 as [-> _].
  exists (u3 ++ u5 ++ u7), rest. rewrite Hs. now rewrite <- !app_assoc.
Qed.

Lemma re_search_to_first (text pre s1 : str) :
  split_at_first fence text = Some (pre, s1) ->
  re_search pattern text = re_search pattern (fence ++ s1).
Proof.
  revert pre; induction text as [|c text IH]; intros pre;
    rewrite split_at_first_eq; destruct (starts_with fence _) eqn:E.
  - discriminate E.
  - discriminate.
  - intros H.
    replace s1 with (skipn (length fence) (c :: text)) by congruence.
    now rewrite <- (starts_with_skipn _ _ E).
  - destruct (split_at_first fence text) as [[a b]|] eqn:F; [|discriminate].
    cbn [option_map fst snd]. intros H. injection H as <- <-.
    rewrite re_search_step by (now apply run_pattern_not_fence).
    now apply (IH a).
Qed.

(** The marker of the block is the first marker of the text, and the
    interior runs from behind the tag and the whitespace to the next marker. *)
Lemma strip_sql_markdown_found (text pre s1 body post : str) :
  split_at_first fence text = Some (pre, s1) ->
  split_at_first fence (drop_while is_space (drop_while is_word s1)) = Some (body, post) ->
  strip_sql_markdown text = strip body.
Proof.
  intros H1 H2. unfold strip_sql_markdown.
  rewrite (re_search_to_first _ _ _ H1).
  destruct (run_pattern_hd _ _ _ H2) as (u & tl & Hrun).
  now rewrite (re_search_hd _ _ _ _ Hrun).
Qed.

Lemma strip_sql_markdown_fenced (text pre tag ws body post : str) :
  fenced_block text pre tag ws body post ->
  strip_sql_markdown text = strip body.
Proof.
  intros (Ht & Hfirst & Htag & Hnw & Hws & Hns & Hbody).
  apply strip_sql_markdown_found
    with (pre := pre) (s1 := tag ++ ws ++ body ++ fence ++ post) (post := post).
  - now apply split_at_first_of_first.
  - destruct (take_drop_while_app is_word tag _ Htag Hnw) as [_ ->].
    destruct (take_drop_while_app is_space ws _ Hws Hns) as [_ ->].
    now apply split_at_first_of_first.
Qed.

Lemma strip_sql_markdown_unfenced (text : str) :
  (forall pre mid post, text <> pre ++ fence ++ mid ++ fence ++ post) ->
  strip_sql_markdown text = strip text.
Proof.
  intros H. unfold strip_sql_markdown.
  rewrite re_search_none; [reflexivity|].
  intros a t ->. destruct (run pattern t) as [|m l] eqn:E; [reflexivity|].
  destruct (run_pattern_sound t m) as (x & rest & ->); [rewrite E; now left|].
  now destruct (H a x rest).
Qed.

Lemma fenced_block_exists (text : str) :
  (exists pre mid post, text = pre ++ fence ++ mid ++ fence ++ post) ->
  exists pre tag ws body post, fenced_block text pre tag ws body post.
Proof.
  intros (pre0 & mid & post0 & Ht).
  destruct (split_at_first_occurs fence text) as (pre & s1 & Hsplit).
  { now exists pre0, (mid ++ fence ++ post0). }
  destruct (split_at_first_some _ _ _ _ Hsplit) as [Hfirst Hs1].
  assert (Hocc : occurs fence s1).
  { destruct Hfirst as [_ Hmin]. pose proof (Hmin _ _ Ht) as Hle.
    rewrite Hs1 in Ht. apply app_eq_app in Ht as [l [[Hp Hr] | [Hp Hr]]].
    - assert (Hl : length l = 0).
      { apply (f_equal (@length char)) in Hp. rewrite length_app in Hp. lia. }
      apply length_zero_iff_nil in Hl. subst l. cbn [app] in Hr.
      apply (occurs_behind fence s1 [] mid post0). cbn [app]. now symmetry.
    - now apply (occurs_behind fence s1 l mid post0). }
  destruct (split_at_first_occurs _ _ (occurs_after_tag _ Hocc))
    as (body & post & Hclose).
  destruct (split_at_first_some _ _ _ _ Hclose) as [Hbody Hrest].
  exists pre, (take_while is_word s1),
    (take_while is_space (drop_while is_word s1)), body, post.
  assert (Hws : drop_while is_word s1 =
                take_while is_space (drop_while is_word s1) ++
                body ++ fence ++ post).
  { rewrite <- Hrest. apply take_drop_while. }
  repeat split.
  - rewrite <- Hws, <- take_drop_while. exact Hs1.
  - apply Hfirst.
  - apply Hfirst.
  - apply take_while_all.
  - rewrite <- Hws. apply drop_while_not_starting.
  - apply take_while_all.
  - rewrite <- Hrest. apply drop_while_not_starting.
  - now exists post.
  - rewrite <- Hrest. apply Hbody.
Qed.

End FenceFacts.

Lemma drop_while_ext (f g : char -> bool) (s : str) :
  (forall c, In c s -> f c = g c) -> drop_while f s = drop_while g s.
Proof.
  induction s as [|c s IH]; intros H; simpl; [reflexivity|].
  rewrite <- (H c) by now left.
  destruct (f c); [|reflexivity]. apply IH. intros x Hx. apply H. now right.
Qed.

Lemma drop_while_incl (f : char -> bool) (s : str) (c : char) :
  In c (drop_while f s) -> In c s.
Proof.
  induction s as [|x s IH]; simpl; [auto|].
  destruct (f x); [|auto]. intros H. right. now apply IH.
Qed.

Section FenceExtractor.
Context {U : Unicode}.

(** On an ASCII text [strip] drops the ASCII whitespace, whatever the rest
    of the tables. *)
Lemma strip_ascii (s : str) :
  forallb is_ascii s = true ->
  strip s = rev (drop_while ascii_space (rev (drop_while ascii_space s))).
Proof.
  intros H. unfold strip. rewrite forallb_forall in H.
  assert (Hs : drop_while is_space s = drop_while ascii_space s).
  { apply drop_while_ext. intros c Hc. apply is_space_ascii. now apply H. }
  rewrite Hs. f_equal. apply drop_while_ext. intros c Hc.
  apply is_space_ascii, H. apply in_rev in Hc.
  now apply drop_while_incl in Hc.
Qed.

Lemma fenced_block_sql_select_1 :
  fenced_block (lit "```sql
SELECT 1
```") [] (lit "sql") (lit "
") (lit "SELECT 1
") [].
Proof.
  repeat split.
  - now exists (lit "sql
SELECT 1
```").
  - intros a b _. simpl. lia.
  - apply forallb_forall. intros c Hc. unfold is_word.
    simpl in Hc. destruct Hc as [<-|[<-|[<-|[]]]];
      now rewrite is_alnum_ascii.
  - intros c s' H. injection H as <- _. unfold is_word.
    now rewrite is_alnum_ascii.
  - simpl. now rewrite is_space_ascii.
  - intros c s' H. injection H as <- _. now rewrite is_space_ascii.
  - now exists [].
  - apply (split_at_first_some fence _ _ []). reflexivity.
Qed.

(** C5. The fence extractor is a total function of the text. When the text
    has a fenced block, it returns the trimmed interior of the first one: the
    opening marker is the first marker of the text, the tag is the longest
    run of word characters behind it, the whitespace behind the tag is
    skipped, and the interior ends at the next marker. Every text with two
    markers, one behind the other, has such a block. A text without returns
    trimmed. The fenced "SELECT 1" of the specification comes out bare. *)
Theorem strip_sql_markdown_first_block :
  (forall text pre tag ws body post,
     fenced_block text pre tag ws body post ->
     strip_sql_markdown text = strip body) /\
  (forall text,
     (exists pre mid post, text = pre ++ fence ++ mid ++ fence ++ post) ->
     exists pre tag ws body post, fenced_block text pre tag ws body post) /\
  (forall text,
     (forall pre mid post, text <> pre ++ fence ++ mid ++ fence ++ post) ->
     strip_sql_markdown text = strip text) /\
  strip_sql_markdown (lit "```sql
SELECT 1
```") = lit "SELECT 1".
Proof.
  split; [exact strip_sql_markdown_fenced|].
  split; [exact fenced_block_exists|].
  split; [exact strip_sql_markdown_unfenced|].
  rewrite (strip_sql_markdown_fenced _ _ _ _ _ _ fenced_block_sql_select_1).
  now rewrite strip_ascii.
Qed.

End FenceExtractor.

(** ** Execution engine and summarizer *)

Lemma requests_app (a b : list event) :
  requests (a ++ b) = requests a ++ requests b.
Proof.
  induction a as [|e a IH]; simpl; [reflexivity|].
  destruct e; simpl; now rewrite IH.
Qed.

Lemma df_to_records_head (n : nat) (df : DataFrame) :
  df_to_records (df_head n df) = firstn n (df_to_records df).
Proof. unfold df_to_records, df_head. simpl. now rewrite firstn_map. Qed.

Section PipelineFacts.
Context {U : Unicode} {X : External}.

(** C4, as the code has it. [execute_query] closes the connection it opened
    when the store answers; when the store raises, the error leaves the
    function before [con.close()] and the connection stays open. When the
    store cannot be connected to, nothing is opened. *)
Theorem execute_query_closes_on_return_only (query : str) (w : world) :
  match db_connect (w_store w) with
  | Some e => execute_query query w = (inl e, w)
  | None =>
      let con := w_next w in
      exists w',
        w_trace w' =
        w_trace w ++ Connected con :: Executed con query ::
          match fst (db_execute (w_store w) query) with
          | inr _ => [Closed con]
          | inl _ => []
          end /\
        match fst (db_execute (w_store w) query) with
        | inr df => execute_query query w = (inr df, w') /\ ~ In con (w_open w')
        | inl e => execute_query query w = (inl e, w') /\ In con (w_open w')
        end
  end.
Proof.
  unfold execute_query, bind, connect, execute_fetchdf, close, ret, log.
  destruct (db_connect (w_store w)) as [e|]; [reflexivity|].
  cbn [w_store w_open w_next w_calls w_trace].
  destruct (db_execute (w_store w) query) as [[e|df] s]; cbn [fst];
    eexists; (split; [|split; [reflexivity|]]); cbn [w_trace w_open].
  - now rewrite <- !app_assoc.
  - now left.
  - now rewrite <- !app_assoc.
  - intros H. apply filter_In in H as [_ H]. now rewrite Nat.eqb_refl in H.
Qed.

(** C6. On a result without rows the summarizer returns the sentence
    "No records matched the query." and nothing else, and leaves the world as
    it is: the service is not called. On a result that is not empty it calls
    the service once, and the rows in the request are the first ten rows of
    the result and no others. *)
Theorem generate_summary_short_circuit (user_query : str) (df : DataFrame) (w : world) :
  (df_rows df = [] ->
   generate_summary user_query df w =
   (inr (lit "No records matched the query."), w)) /\
  (df_empty df = false ->
   exists rq r w',
     generate_summary user_query df w = (r, w') /\
     requests (w_trace w') = requests (w_trace w) ++ [rq] /\
     w_calls w' = S (w_calls w) /\
     flat_map records_sent (map msg_content (rq_messages rq)) =
     firstn 10 (df_to_records df) /\
     length (flat_map records_sent (map msg_content (rq_messages rq))) <= 10).
Proof.
  split.
  - intros H. unfold generate_summary, df_empty. rewrite H. simpl.
    now rewrite orb_true_r.
  - intros H. unfold generate_summary. rewrite H.
    set (preview := df_to_records (df_head 10 df)).
    assert (Hsent : flat_map records_sent
                      [summary_system_prompt; summary_user_prompt user_query preview] =
                    firstn 10 (df_to_records df)).
    { unfold preview. rewrite df_to_records_head.
      generalize (firstn 10 (df_to_records df)) as l. intros l.
      simpl. now rewrite !app_nil_r. }
    exists {| rq_model := deployment;
              rq_messages :=
                [ {| msg_role := System; msg_content := summary_system_prompt |};
                  {| msg_role := User;
                     msg_content := summary_user_prompt user_query preview |} ];
              rq_temperature := (2%Z, 10%positive) |}.
    cbn [rq_messages map msg_content]. rewrite Hsent.
    unfold bind, chat_create, print, emit, maintain_tokens_count, content_strip,
      ret, raise, log.
    cbn [w_store w_open w_next w_calls w_trace].
    destruct (llm_create (w_calls w) _) as [e|c]; cbn [rs_id rs_content];
      [|destruct (tokens_count (w_calls w)); [|destruct c]];
      (eexists _, _; split; [reflexivity|]; cbn [w_trace w_calls];
       rewrite !requests_app; cbn [requests]; rewrite ?app_nil_r;
       repeat split; apply firstn_le_length).
Qed.

End PipelineFacts.

(** C4, as worded, fails when the store raises: the statement is executed on
    connection 0, the error comes back, and connection 0 is still open, with
    no [Closed] in the trace. *)
Lemma execute_query_leaves_connection_open :
  fst (execute_query (lit "SELECT nope FROM uploaded_data LIMIT 10;") demo_world) =
  inl (StoreError (lit "Binder Error")) /\
  w_open (snd (execute_query (lit "SELECT nope FROM uploaded_data LIMIT 10;")
                 demo_world)) = [0] /\
  w_trace (snd (execute_query (lit "SELECT nope FROM uploaded_data LIMIT 10;")
                  demo_world)) =
  [Connected 0; Executed 0 (lit "SELECT nope FROM uploaded_data LIMIT 10;")].
Proof. repeat split. Qed.

(** ** Interactive loop *)

Section LoopFacts.
Context {U : Unicode} {X : External}.

Lemma bind_inr {A B} {m : M A} (k : A -> M B) {w w' : world} {a : A} :
  m w = (inr a, w') -> bind m k w = k a w'.
Proof. intros H. unfold bind. now rewrite H. Qed.

Lemma bind_inl {A B} {m : M A} (k : A -> M B) {w w' : world} {e : exn} :
  m w = (inl e, w') -> bind m k w = (inl e, w').
Proof. intros H. unfold bind. now rewrite H. Qed.

Lemma bind_emit {B} (e : event) (k : unit -> M B) (w : world) :
  bind (emit e) k w = k tt (log e w).
Proof. reflexivity. Qed.

Lemma bind_print {B} (items : list printed) (k : unit -> M B) (w : world) :
  bind (print items) k w = k tt (log (Printed items) w).
Proof. reflexivity. Qed.



(** C3, as the code has it. Nothing in the loop catches an exception. An
    error raised in a turn, by the synthesis, by the store while it executes
    the validated statement, or by the summarizer, is the outcome of the
    whole loop: the world stays as the failing call left it, nothing more is
    printed, and the lines that follow are not read. *)
Theorem main_loop_error_ends_loop (md : metadata) (line : str) (rest : list str)
        (w : world) :
  str_eqb (str_lower line) (lit "exit") = false ->
  let w0 := log (Prompted ask_prompt) w in
  (forall e w1,
     generate_select_sql line md TABLE_NAME w0 = (inl e, w1) ->
     main_loop md (line :: rest) w = (inl e, w1)) /\
  (forall sql w1,
     generate_select_sql line md TABLE_NAME w0 = (inr sql, w1) ->
     is_safe_query sql = true ->
     let query := enforce_limit sql default_limit in
     let w2 := log (Printed [PStr generated_header; PStr query]) w1 in
     (forall e w3,
        execute_query query w2 = (inl e, w3) ->
        main_loop md (line :: rest) w = (inl e, w3)) /\
     (forall df w3 e w4,
        execute_query query w2 = (inr df, w3) ->
        generate_summary line df
          (log (Printed [PFrame (df_head 10 df)])
             (log (Printed [PStr result_header]) w3)) = (inl e, w4) ->
        main_loop md (line :: rest) w = (inl e, w4))).
Proof.
  intros Hexit w0. split.
  - intros e w1 Hgen. cbn [main_loop]. rewrite bind_emit, Hexit.
    now rewrite (bind_inl _ Hgen).
  - intros sql w1 Hgen Hsafe query w2. split.
    + intros e w3 Hexec. cbn [main_loop]. rewrite bind_emit, Hexit.
      rewrite (bind_inr _ Hgen), Hsafe. cbn [negb]. cbv zeta.
      rewrite bind_print. now rewrite (bind_inl _ Hexec).
    + intros df w3 e w4 Hexec Hsum. cbn [main_loop]. rewrite bind_emit, Hexit.
      rewrite (bind_inr _ Hgen), Hsafe. cbn [negb]. cbv zeta.
      rewrite bind_print. rewrite (bind_inr _ Hexec).
      rewrite !bind_print. now rewrite (bind_inl _ Hsum).
Qed.

End LoopFacts.

(** ** Schema descriptor builder *)

Lemma value_eqb_eq (a b : value) : value_eqb a b = true <-> a = b.
Proof.
  destruct a, b; simpl; split; intros H; try discriminate; try reflexivity.
  - apply Z.eqb_eq in H. now subst.
  - injection H as ->. apply Z.eqb_refl.
  - apply str_eqb_eq in H. now subst.
  - injection H as ->. now apply str_eqb_eq.
  - apply N.eqb_eq in H. now subst.
  - injection H as ->. apply N.eqb_refl.
Qed.

Section DictFacts.
Variables K V : Type.
Variable eqb : K -> K -> bool.
Hypothesis eqb_eq : forall a b, eqb a b = true <-> a = b.

Lemma dict_set_keys (d : dict K V) (k0 : K) (v : V) (k : K) :
  In k (dict_keys (dict_set eqb d k0 v)) <-> k = k0 \/ In k (dict_keys d).
Proof.
  induction d as [|[k' v'] d IH]; simpl.
  - intuition.
  - destruct (eqb k' k0) eqn:E; simpl.
    + apply eqb_eq in E. subst k'. intuition.
    + unfold dict_keys in IH. rewrite IH. intuition.
Qed.

Lemma dict_fold_keys (items : list (K * V)) (d : dict K V) (k : K) :
  In k (dict_keys (fold_left (fun d kv => dict_set eqb d (fst kv) (snd kv)) items d))
  <-> In k (dict_keys d) \/ In k (map fst items).
Proof.
  revert d; induction items as [|[k0 v0] items IH]; intros d; simpl.
  - intuition.
  - rewrite IH, dict_set_keys. simpl. intuition.
Qed.

(** The keys of [dict(items)] are the first components of the items. *)
Lemma dict_of_items_keys (items : list (K * V)) (k : K) :
  In k (dict_keys (dict_of_items eqb items)) <-> In k (map fst items).
Proof.
  unfold dict_of_items. rewrite dict_fold_keys. simpl. intuition.
Qed.

End DictFacts.

Lemma map_fst_combine {A B} (l : list A) (l' : list B) :
  length l = length l' -> map fst (combine l l') = l.
Proof.
  revert l'; induction l as [|a l IH]; intros [|b l'] H; simpl in *;
    try discriminate; [reflexivity|].
  f_equal. apply IH. now injection H.
Qed.

Lemma in_map_fst_combine {A B} (l : list A) (l' : list B) (a : A) :
  In a (map fst (combine l l')) -> In a l.
Proof.
  intros H. apply in_map_iff in H as [[x y] [<- H]].
  now apply in_combine_l in H.
Qed.

Section BuilderFacts.
Context {U : Unicode} {X : External}.

Lemma column_of_frame (d : DataFrame) (label : str) (l : list value) (w : world) :
  df_col d label = Some l -> column d label w = (inr l, w).
Proof. intros H. unfold column. now rewrite H. Qed.

(** The frame of a table without constraints describes it. *)
Lemma describe_frame_describes (t : table) : describes (describe_frame t) t.
Proof.
  split; unfold df_col, describe_frame; cbn; now rewrite map_map.
Qed.

(** So does a frame of the six labels with any attributes in the last
    four. *)
Lemma describes_any_attributes (cols : list ((str * str) * (value * value * value * value)))
      (rows : list (list value)) :
  describes
    {| df_columns :=
         [lit "column_name"; lit "column_type"; lit "null"; lit "key";
          lit "default"; lit "extra"];
       df_rows :=
         map (fun c : (str * str) * (value * value * value * value) =>
                let '(nt, (n, k, d, e)) := c in
                [VStr (fst nt); VStr (snd nt); n; k; d; e])
             cols |}
    {| tb_schema := map fst cols; tb_rows := rows |}.
Proof.
  split; unfold df_col; cbn; rewrite !map_map; f_equal;
    apply map_ext; now intros [nt [[[n k] d] e]].
Qed.

(** C7. For every dataset materialized in the store, whatever constraints
    its columns are declared with, the builder returns a descriptor whose
    columns are the declared names, whose type mapping has exactly these
    names as keys, whose sample rows have keys among the columns, and which
    has at most three sample rows. *)
Theorem extract_metadata_from_db_invariant (table_name : str) (t : table) (w : world) :
  materialized (w_store w) table_name t ->
  exists md w',
    extract_metadata_from_db table_name w = (inr md, w') /\
    md_columns md = map (fun nt : str * str => VStr (fst nt)) (tb_schema t) /\
    (forall k, In k (dict_keys (md_dtypes md)) <-> In k (md_columns md)) /\
    (forall r k,
       In r (md_sample_rows md) -> In k (dict_keys r) ->
       In (VStr k) (md_columns md)) /\
    length (md_sample_rows md) <= 3.
Proof.
  intros (Hcon & d & s1 & s2 & Hdesc & (Hnames & Htypes) & Hsel).
  unfold extract_metadata_from_db.
  unfold bind at 1. unfold connect. rewrite Hcon.
  unfold bind at 1. unfold execute_fetchdf at 1.
  cbn [log w_store w_open w_next w_calls w_trace]. rewrite Hdesc.
  unfold bind at 1. unfold execute_fetchdf at 1.
  cbn [log w_store w_open w_next w_calls w_trace]. rewrite Hsel.
  unfold bind at 1. unfold close at 1.
  cbn [log w_store w_open w_next w_calls w_trace].
  unfold bind.
  rewrite !(column_of_frame _ _ _ _ Hnames), (column_of_frame _ _ _ _ Htypes).
  unfold ret. eexists _, _. split; [reflexivity|].
  cbn [md_columns md_dtypes md_sample_rows].
  split; [reflexivity|]. split; [|split].
  - intros k. rewrite (dict_of_items_keys _ _ _ value_eqb_eq).
    rewrite map_fst_combine by now rewrite !length_map. reflexivity.
  - intros r k Hr Hk. unfold df_to_records, select_frame in Hr.
    cbn [df_columns df_rows] in Hr.
    apply in_map_iff in Hr as [row [<- _]].
    rewrite (dict_of_items_keys _ _ _ str_eqb_eq) in Hk.
    apply in_map_fst_combine in Hk.
    apply in_map_iff in Hk as [nt [<- Hnt]].
    apply in_map_iff. now exists nt.
  - unfold df_to_records, select_frame. cbn [df_columns df_rows].
    rewrite length_map. apply firstn_le_length.
Qed.

End BuilderFacts.

(** ** The program run in the small world *)

Lemma extract_metadata_from_db_invariant_witness :
  @materialized keyed_external (w_store keyed_world) TABLE_NAME demo_table /\
  exists md w',
    @extract_metadata_from_db keyed_external TABLE_NAME keyed_world = (inr md, w') /\
    md_columns md = map (fun nt : str * str => VStr (fst nt)) (tb_schema demo_table) /\
    (forall k, In k (dict_keys (md_dtypes md)) <-> In k (md_columns md)) /\
    (forall r k,
       In r (md_sample_rows md) -> In k (dict_keys r) ->
       In (VStr k) (md_columns md)) /\
    length (md_sample_rows md) <= 3.
Proof.
  assert (H : @materialized keyed_external (w_store keyed_world) TABLE_NAME demo_table).
  { split; [reflexivity|]. exists keyed_describe, demo_table, demo_table.
    split; [reflexivity|]. split; [split; reflexivity | reflexivity]. }
  split; [exact H|].
  exact (@extract_metadata_from_db_invariant keyed_external
           TABLE_NAME demo_table keyed_world H).
Defined.


Lemma main_loop_error_ends_loop_witness :
  str_eqb (str_lower (lit "bad column")) (lit "exit") = false /\
  fst (main_loop demo_metadata [lit "bad column"; lit "show rows"] demo_world) =
  inl (StoreError (lit "Binder Error")).
Proof.
  split; [reflexivity|].
  pose proof (@main_loop_error_ends_loop ascii_tables demo_external
                demo_metadata (lit "bad column") [lit "show rows"] demo_world
                eq_refl) as H.
  cbv zeta in H. destruct H as [_ H].
  destruct (H (lit "SELECT nope FROM uploaded_data")
              (snd (generate_select_sql (lit "bad column") demo_metadata TABLE_NAME
                      (log (Prompted ask_prompt) demo_world)))
              eq_refl eq_refl) as [Hexec _].
  erewrite Hexec; reflexivity.
Defined.

(** C3, as worded, fails when the store raises: the error of the first turn
    is the outcome of the loop, the second question is never asked, and the
    last thing that happens is the failing execution. *)
Lemma main_loop_dies_on_store_error :
  fst (main_loop demo_metadata [lit "bad column"; lit "show rows"] demo_world) =
  inl (StoreError (lit "Binder Error")) /\
  length (filter is_prompted
            (w_trace (snd (main_loop demo_metadata
                             [lit "bad column"; lit "show rows"] demo_world)))) = 1 /\
  last (w_trace (snd (main_loop demo_metadata
                        [lit "bad column"; lit "show rows"] demo_world)))
       (Prompted []) =
  Executed 0 (lit "SELECT nope FROM uploaded_data LIMIT 10;").
Proof. repeat split. Qed.

Example demo_extract :
  fst (extract_metadata_from_db TABLE_NAME demo_world) =
  inr {| md_columns := [VStr (lit "id"); VStr (lit "status")];
         md_dtypes :=
           [(VStr (lit "id"), VStr (lit "INTEGER"));
            (VStr (lit "status"), VStr (lit "VARCHAR"))];
         md_sample_rows :=
           [[(lit "id", VInt 1); (lit "status", VStr (lit "Unknown"))];
            [(lit "id", VInt 2); (lit "status", VStr (lit "Active"))];
            [(lit "id", VInt 3); (lit "status", VStr (lit "Active"))]] |}.
Proof. vm_compute. reflexivity. Qed.

Example demo_session :
  fst (main_loop demo_metadata [lit "show rows"; lit "remove everything"; lit "EXIT"]
         demo_world) = inr tt.
Proof. vm_compute. reflexivity. Qed.

Example demo_interactive :
  fst (interactive [lit "show rows"; lit "Exit"] demo_world) = inr tt /\
  w_open (snd (interactive [lit "show rows"; lit "Exit"] demo_world)) = [].
Proof. split; vm_compute; reflexivity. Qed.

Example demo_end_of_input :
  fst (main_loop demo_metadata [lit "remove everything"] demo_world) = inl EOFError.
Proof. vm_compute. reflexivity. Qed.

(** A keyword inside a longer word is a keyword all the same. *)
Example is_safe_query_created_at :
  is_safe_query (lit "SELECT created_at FROM uploaded_data") = false /\
  is_safe_query (lit "select * from backdrops") = false /\
  is_safe_query (lit "SELECT status FROM uploaded_data") = true.
Proof. repeat split. Qed.

(** A column that has "limit" in its name passes for a bound clause. *)
Example enforce_limit_runs :
  enforce_limit (lit "SELECT 1") default_limit = lit "SELECT 1 LIMIT 10;" /\
  enforce_limit (lit "SELECT 1;") default_limit = lit "SELECT 1 LIMIT 10;" /\
  enforce_limit (lit "SELECT 1; ") default_limit = lit "SELECT 1;  LIMIT 10;" /\
  enforce_limit (lit "SELECT credit_limit FROM t") default_limit =
  lit "SELECT credit_limit FROM t" /\
  enforce_limit (lit "SELECT 1") 25 = lit "SELECT 1 LIMIT 25;".
Proof. repeat split. Qed.

(** Without a line break behind the marker, the first word of the statement
    is read as the language tag. *)
Example strip_sql_markdown_runs :
  strip_sql_markdown (lit "Here it is: ```SELECT 1``` and ```x```") = lit "1" /\
  strip_sql_markdown (lit "  SELECT 1  ") = lit "SELECT 1" /\
  strip_sql_markdown (lit "```sql SELECT 1") = lit "```sql SELECT 1" /\
  strip_sql_markdown (lit "``````") = [].
Proof. repeat split. Qed.

(** * Further properties *)

(** ** The guardrails on every bound and on texts put together *)

Lemma forallb_impl {A} (f g : A -> bool) (l : list A) :
  (forall x, f x = true -> g x = true) ->
  forallb f l = true -> forallb g l = true.
Proof.
  intros H. induction l as [|x l IH]; simpl; [reflexivity|].
  intros Hl. apply andb_true_iff in Hl as [Hx Hl].
  now rewrite (H x Hx), IH.
Qed.

(** A text none of whose characters is the first of [p] has no [p] in it. *)
Lemma contains_first_absent (a : char) (p s : str) :
  forallb (fun c => negb (char_eqb a c)) s = true ->
  contains (a :: p) s = false.
Proof.
  induction s as [|c s IH]; simpl; [reflexivity|].
  intros H. apply andb_true_iff in H as [Hc Hs].
  apply negb_true_iff in Hc. rewrite Hc, (IH Hs). reflexivity.
Qed.

Lemma char_in_cons (x c : char) (cs : str) :
  char_in x cs = true -> char_in x (c :: cs) = true.
Proof. unfold char_in. simpl. intros ->. apply orb_true_r. Qed.

Lemma uint_digits (d : Decimal.uint) :
  forallb (fun c => char_in c (lit "0123456789"))
          (lit (NilEmpty.string_of_uint d)) = true.
Proof. induction d; simpl; try reflexivity; exact IHd. Qed.

(** [str(n)] is made of digits and the minus sign. *)
Lemma str_of_int_digits (n : Z) :
  forallb (fun c => char_in c (lit "-0123456789")) (str_of_int n) = true.
Proof.
  assert (Hu : forall d, forallb (fun c => char_in c (lit "-0123456789"))
                                 (lit (NilZero.string_of_uint d)) = true).
  { intros d. unfold NilZero.string_of_uint.
    destruct d; try reflexivity;
      (eapply forallb_impl; [|apply uint_digits]);
      intros x Hx;
      change (lit "-0123456789") with (45%N :: lit "0123456789");
      now apply char_in_cons. }
  unfold str_of_int, NilZero.string_of_int.
  destruct (Z.to_int n) as [d|d]; [apply Hu|].
  change (lit (String "-" (NilZero.string_of_uint d)))
    with (45%N :: lit (NilZero.string_of_uint d)).
  simpl. apply Hu.
Qed.

(** The characters of a bound and the terminator: ASCII, without case, no
    letters. *)
Lemma plain_char (x : char) :
  char_in x (lit "-0123456789;") = true ->
  is_ascii x = true /\ ascii_upper x = x /\ ascii_letter x = false.
Proof.
  unfold char_in. simpl. rewrite !orb_false_r. intros H.
  repeat (apply orb_true_iff in H as [H|H];
          [apply char_eqb_eq in H; subst x; repeat split|]).
  apply char_eqb_eq in H. subst x. repeat split.
Qed.

Lemma bound_tail_plain (n : Z) :
  forallb (fun c => char_in c (lit "-0123456789;")) (str_of_int n ++ lit ";") = true.
Proof.
  rewrite forallb_app. apply andb_true_iff. split; [|reflexivity].
  eapply forallb_impl; [|apply str_of_int_digits].
  intros x Hx.
  change (lit "-0123456789;") with (lit "-0123456789" ++ [59%N]).
  unfold char_in in *. rewrite existsb_app, Hx. reflexivity.
Qed.

Lemma map_upper_plain (l : str) :
  forallb (fun c => char_in c (lit "-0123456789;")) l = true ->
  map ascii_upper l = l.
Proof.
  induction l as [|x l IH]; intros H; [reflexivity|].
  cbn [forallb] in H. apply andb_true_iff in H as [Hx Hl].
  cbn [map]. rewrite (IH Hl).
  destruct (plain_char x Hx) as (_ & -> & _). reflexivity.
Qed.

(** A keyword starts with a letter. *)
Lemma forbidden_starts_with_letter (kw : str) :
  In kw forbidden -> exists a p, kw = a :: p /\ ascii_letter a = true.
Proof.
  intros H. simpl in H.
  repeat (destruct H as [<- | H]; [eexists _, _; split; reflexivity|]).
  destruct H.
Qed.

Section BoundFacts.
Context {U : Unicode}.

(** Behind the clause stand the bound and the terminator: no letter, so no
    keyword. *)
Lemma bound_tail_apart (n : Z) (kw : str) :
  In kw forbidden ->
  forallb is_ascii (str_of_int n ++ lit ";") = true /\
  contains kw (map ascii_upper (str_of_int n ++ lit ";")) = false.
Proof.
  intros Hkw. pose proof (bound_tail_plain n) as Hd. split.
  - eapply forallb_impl; [|exact Hd]. intros x Hx. now apply plain_char.
  - rewrite (map_upper_plain _ Hd).
    destruct (forbidden_starts_with_letter kw Hkw) as (a & p & -> & Ha).
    apply contains_first_absent.
    eapply forallb_impl; [|exact Hd]. intros x Hx.
    destruct (plain_char x Hx) as (_ & _ & Hx').
    apply negb_true_iff. destruct (char_eqb a x) eqn:E; [|reflexivity].
    apply char_eqb_eq in E. subst x. congruence.
Qed.

(** The clause with any bound brings no keyword. *)
Lemma enforce_limit_keeps_safe (q : str) (n : Z) :
  is_safe_query q = true -> is_safe_query (enforce_limit q n) = true.
Proof.
  intros Hsafe.
  destruct (contains (lit "LIMIT") (upper q)) eqn:E.
  - now rewrite enforce_limit_bounded.
  - rewrite enforce_limit_unbounded by assumption.
    rewrite is_safe_query_true in *. intros kw Hkw.
    destruct (forbidden_apart kw Hkw) as [Hsp [Hl _]].
    destruct (bound_tail_apart n kw Hkw) as [Hascii Htail].
    rewrite upper_app.
    change (lit " LIMIT ") with (32%N :: lit "LIMIT" ++ [32%N]).
    change ((32%N :: lit "LIMIT" ++ [32%N]) ++ str_of_int n ++ lit ";")
      with (32%N :: (lit "LIMIT" ++ [32%N]) ++ str_of_int n ++ lit ";").
    rewrite <- app_assoc. cbn [app].
    replace (upper (32%N :: lit "LIMIT" ++ 32%N :: str_of_int n ++ lit ";"))
      with (32%N :: lit "LIMIT" ++ 32%N :: map ascii_upper (str_of_int n ++ lit ";")).
    + rewrite !contains_sep by assumption.
      now rewrite Hl, Htail, (contains_upper_rstrip _ _ _ (Hsafe kw Hkw)).
    + change (32%N :: lit "LIMIT" ++ 32%N :: str_of_int n ++ lit ";")
        with (lit " LIMIT " ++ str_of_int n ++ lit ";").
      rewrite upper_app, (upper_ascii _ Hascii).
      now rewrite upper_ascii.
Qed.

(** X1. Whatever the bound, the enforcer keeps what the safety gate
    accepted, puts "LIMIT" into the uppercased text, and is left without
    effect by any later application, with the same bound or another. *)
Theorem enforce_limit_any_bound (q : str) (n m : Z) :
  (is_safe_query q = true -> is_safe_query (enforce_limit q n) = true) /\
  contains (lit "LIMIT") (upper (enforce_limit q n)) = true /\
  enforce_limit (enforce_limit q n) m = enforce_limit q n.
Proof.
  split; [|split].
  - apply enforce_limit_keeps_safe.
  - apply enforce_limit_has_limit.
  - apply enforce_limit_bounded, enforce_limit_has_limit.
Qed.

End BoundFacts.

Lemma existsb_orb {A} (f g h : A -> bool) (l : list A) :
  (forall x, In x l -> f x = g x || h x) ->
  existsb f l = existsb g l || existsb h l.
Proof.
  induction l as [|x l IH]; intros H; simpl; [reflexivity|].
  rewrite (H x) by now left. rewrite IH by (intros y Hy; apply H; now right).
  destruct (g x), (h x), (existsb g l), (existsb h l); reflexivity.
Qed.

(** A keyword is made of letters. *)
Lemma forbidden_letters (kw : str) (c : char) :
  In kw forbidden -> ascii_letter c = false -> char_in c kw = false.
Proof.
  intros H Hc. simpl in H.
  assert (Hall : forallb ascii_letter kw = true).
  { repeat (destruct H as [<- | H]; [reflexivity|]). destruct H. }
  clear H. unfold char_in. induction kw as [|x kw IH]; [reflexivity|].
  cbn [forallb] in Hall. apply andb_true_iff in Hall as [Hx Hkw].
  cbn [existsb]. rewrite (IH Hkw), orb_false_r.
  destruct (char_eqb c x) eqn:E; [|reflexivity].
  apply char_eqb_eq in E. subst x. congruence.
Qed.

Section SeparatorFacts.
Context {U : Unicode}.

(** X2. The safety gate judges a text piece by piece: at an ASCII character
    that is not a letter (a terminator, a blank, a line break, a bracket) the
    text is accepted exactly when the part before it and the part behind it
    are both accepted. *)
Theorem is_safe_query_splits_at_separator (a b : str) (c : char) :
  is_ascii c = true -> ascii_letter c = false ->
  is_safe_query (a ++ c :: b) = is_safe_query a && is_safe_query b.
Proof.
  intros Hascii Hc. unfold is_safe_query.
  rewrite <- negb_orb. f_equal.
  apply existsb_orb. intros kw Hkw.
  change (a ++ c :: b) with (a ++ [c] ++ b).
  rewrite !upper_app. unfold upper at 2. cbn [flat_map].
  rewrite (to_upper_full_ascii c Hascii), app_nil_r. cbn [app].
  assert (Hup : ascii_upper c = c).
  { unfold ascii_upper. unfold ascii_letter in Hc.
    apply orb_false_iff in Hc as [_ Hc]. now rewrite Hc. }
  rewrite Hup. apply contains_sep. now apply forbidden_letters.
Qed.

End SeparatorFacts.

Lemma is_safe_query_splits_at_separator_witness :
  is_ascii terminator = true /\ ascii_letter terminator = false /\
  is_safe_query (lit "SELECT 1" ++ terminator :: lit "DROP TABLE uploaded_data") =
  is_safe_query (lit "SELECT 1") && is_safe_query (lit "DROP TABLE uploaded_data").
Proof.
  split; [reflexivity|]. split; [reflexivity|].
  apply (@is_safe_query_splits_at_separator ascii_tables); reflexivity.
Defined.

(** ** The fence extractor applied again, and behind [strip] *)

Lemma drop_while_fixed (f : char -> bool) (s : str) :
  not_starting f s -> drop_while f s = s.
Proof.
  destruct s as [|c s]; [reflexivity|]. intros H. simpl.
  now rewrite (H c s eq_refl).
Qed.

Lemma drop_while_suffix (f : char -> bool) (s : str) :
  exists l, s = l ++ drop_while f s /\ forallb f l = true.
Proof.
  exists (take_while f s). split; [apply take_drop_while | apply take_while_all].
Qed.

Lemma not_starting_app (f : char -> bool) (a b : str) :
  not_starting f (a ++ b) -> a <> [] -> not_starting f a.
Proof.
  intros H Ha c s' ->. now apply (H c (s' ++ b)).
Qed.

Section StripFacts.
Context {U : Unicode}.

(** What [strip] keeps: the text between the leading and the trailing
    whitespace, with no whitespace at either end. *)
Lemma strip_spec (s : str) :
  (exists l r,
     s = l ++ strip s ++ r /\
     forallb is_space l = true /\ forallb is_space r = true) /\
  not_starting is_space (strip s) /\
  not_starting is_space (rev (strip s)).
Proof.
  unfold strip.
  destruct (drop_while_suffix is_space s) as (l & Hs & Hl).
  set (t := drop_while is_space s) in *.
  destruct (drop_while_suffix is_space (rev t)) as (r & Ht & Hr).
  set (u := drop_while is_space (rev t)) in *.
  assert (Ht' : t = rev u ++ rev r).
  { rewrite <- rev_app_distr, <- Ht. symmetry. apply rev_involutive. }
  split; [|split].
  - exists l, (rev r). split; [now rewrite <- Ht'|]. split; [exact Hl|].
    rewrite forallb_forall in *. intros x Hx. apply Hr. now apply in_rev.
  - destruct (rev u) as [|x ru] eqn:E; [intros c s' H; discriminate|].
    apply not_starting_app with (b := rev r); [|discriminate].
    rewrite <- Ht'. apply drop_while_not_starting.
  - rewrite rev_involutive. apply drop_while_not_starting.
Qed.

Lemma strip_fixed (s : str) :
  not_starting is_space s -> not_starting is_space (rev s) -> strip s = s.
Proof.
  intros H1 H2. unfold strip.
  rewrite (drop_while_fixed _ _ H1), (drop_while_fixed _ _ H2).
  apply rev_involutive.
Qed.

Lemma strip_idempotent (s : str) : strip (strip s) = strip s.
Proof.
  destruct (strip_spec s) as (_ & H1 & H2). now apply strip_fixed.
Qed.

Lemma occurs_strip (p s : str) : occurs p (strip s) -> occurs p s.
Proof.
  destruct (strip_spec s) as ((l & r & Hs & _) & _).
  intros (a & b & H). exists (l ++ a), (b ++ r).
  rewrite Hs at 1. rewrite H. now rewrite <- !app_assoc.
Qed.

(** A text without a marker has no block. *)
Lemma no_marker_no_block (t : str) :
  ~ occurs fence t ->
  forall pre mid post, t <> pre ++ fence ++ mid ++ fence ++ post.
Proof.
  intros H pre mid post ->. apply H. now exists pre, (mid ++ fence ++ post).
Qed.

Lemma block_in_strip (t : str) :
  (forall pre mid post, t <> pre ++ fence ++ mid ++ fence ++ post) ->
  forall pre mid post, strip t <> pre ++ fence ++ mid ++ fence ++ post.
Proof.
  intros H pre mid post E.
  destruct (strip_spec t) as ((l & r & Ht & _) & _).
  apply (H (l ++ pre) mid (post ++ r)).
  rewrite Ht at 1. rewrite E. now rewrite <- !app_assoc.
Qed.

(** The second marker of a block lies behind the first marker of the
    text. *)
Lemma second_marker_behind_first (t pre s1 a m b : str) :
  first_at fence pre t -> t = pre ++ fence ++ s1 ->
  t = a ++ fence ++ m ++ fence ++ b -> occurs fence s1.
Proof.
  intros [_ Hmin] Hs Ht. pose proof (Hmin _ _ Ht) as Hle.
  rewrite Hs in Ht. apply app_eq_app in Ht as [l [[Hp Hr] | [Hp Hr]]].
  - assert (Hl : length l = 0).
    { apply (f_equal (@length char)) in Hp. rewrite length_app in Hp. lia. }
    apply length_zero_iff_nil in Hl. subst l. cbn [app] in Hr.
    apply (occurs_behind fence s1 [] m b). cbn [app]. now symmetry.
  - now apply (occurs_behind fence s1 l m b).
Qed.

(** The two ways the extractor answers: the trimmed interior of a block,
    which has no marker in it, or the trimmed text, which has no block. *)
Lemma strip_sql_markdown_cases (t : str) :
  (exists body, ~ occurs fence body /\ strip_sql_markdown t = strip body) \/
  ((forall pre mid post, t <> pre ++ fence ++ mid ++ fence ++ post) /\
   strip_sql_markdown t = strip t).
Proof.
  destruct (split_at_first fence t) as [[pre s1]|] eqn:E1.
  - destruct (split_at_first fence (drop_while is_space (drop_while is_word s1)))
      as [[body post]|] eqn:E2.
    + left. exists body. split; [|now apply (strip_sql_markdown_found t pre s1 body post)].
      destruct (split_at_first_some _ _ _ _ E2) as [[_ Hmin] Hrest].
      intros (x & y & Hb).
      assert (Hle : length body <= length x).
      { apply (Hmin x (y ++ fence ++ post)). rewrite Hrest, Hb.
        now rewrite <- !app_assoc. }
      rewrite Hb, !length_app in Hle. cbn in Hle. lia.
    + right.
      assert (Hno : forall pre mid post, t <> pre ++ fence ++ mid ++ fence ++ post).
      { intros a m b Ht.
        destruct (split_at_first_some _ _ _ _ E1) as [Hfirst Hs].
        pose proof (second_marker_behind_first t pre s1 a m b Hfirst Hs Ht) as Hocc.
        apply occurs_after_tag, contains_iff in Hocc.
        apply split_at_first_none in E2. congruence. }
      split; [exact Hno | now apply strip_sql_markdown_unfenced].
  - right.
    assert (Hno : forall pre mid post, t <> pre ++ fence ++ mid ++ fence ++ post).
    { apply no_marker_no_block. intros H. apply contains_iff in H.
      apply split_at_first_none in E1. congruence. }
    split; [exact Hno | now apply strip_sql_markdown_unfenced].
Qed.

(** X3. What the fence extractor returns is clean: it has no whitespace at
    either end and no fenced block in it, and the extractor applied to it
    gives it back. *)
Theorem strip_sql_markdown_output_clean (t : str) :
  not_starting is_space (strip_sql_markdown t) /\
  not_starting is_space (rev (strip_sql_markdown t)) /\
  (forall pre mid post,
     strip_sql_markdown t <> pre ++ fence ++ mid ++ fence ++ post) /\
  strip_sql_markdown (strip_sql_markdown t) = strip_sql_markdown t.
Proof.
  destruct (strip_sql_markdown_cases t) as [(body & Hbody & ->) | (Hno & ->)].
  - assert (Hclean : forall pre mid post,
               strip body <> pre ++ fence ++ mid ++ fence ++ post).
    { apply block_in_strip. now apply no_marker_no_block. }
    destruct (strip_spec body) as (_ & H1 & H2).
    repeat split; try assumption.
    rewrite strip_sql_markdown_unfenced by exact Hclean. apply strip_idempotent.
  - pose proof (block_in_strip t Hno) as Hclean.
    destruct (strip_spec t) as (_ & H1 & H2).
    repeat split; try assumption.
    rewrite strip_sql_markdown_unfenced by exact Hclean. apply strip_idempotent.
Qed.

End StripFacts.

Section TrimFacts.
Context {U : Unicode}.

(** Leading whitespace ends before the first marker. *)
Lemma cut_leading_space (l x pre y : str) :
  l ++ x = pre ++ fence ++ y -> forallb is_space l = true ->
  exists pre', pre = l ++ pre' /\ x = pre' ++ fence ++ y.
Proof.
  revert pre; induction l as [|c l IH]; intros pre H Hl.
  - now exists pre.
  - cbn [forallb] in Hl. apply andb_true_iff in Hl as [Hc Hl].
    destruct pre as [|d pre].
    + injection H as -> _. rewrite is_space_backquote in Hc. discriminate.
    + injection H as -> H. destruct (IH pre H Hl) as (pre' & -> & ->).
      now exists pre'.
Qed.

(** Trailing whitespace starts behind the last marker. *)
Lemma cut_trailing_space (x r y post : str) :
  x ++ r = y ++ fence ++ post -> forallb is_space r = true ->
  exists post', post = post' ++ r /\ x = y ++ fence ++ post'.
Proof.
  intros H Hr.
  assert (Hrev : rev r ++ rev x = rev post ++ fence ++ rev y).
  { rewrite <- rev_app_distr, H, !rev_app_distr.
    now rewrite <- app_assoc. }
  apply cut_leading_space in Hrev as (p & Hp & Hx).
  - exists (rev p). split.
    + rewrite <- (rev_involutive post), Hp, rev_app_distr.
      now rewrite rev_involutive.
    + rewrite <- (rev_involutive x), Hx, !rev_app_distr.
      rewrite rev_involutive, <- app_assoc. reflexivity.
  - rewrite forallb_forall in *. intros c Hc. apply Hr. now apply in_rev.
Qed.

Lemma block_or_not (t : str) :
  (exists pre mid post, t = pre ++ fence ++ mid ++ fence ++ post) \/
  (forall pre mid post, t <> pre ++ fence ++ mid ++ fence ++ post).
Proof.
  destruct (split_at_first fence t) as [[pre s1]|] eqn:E1.
  - destruct (split_at_first_some _ _ _ _ E1) as [Hfirst Hs].
    destruct (contains fence s1) eqn:E2.
    + left. apply contains_iff in E2 as (mid & post & ->).
      now exists pre, mid, post.
    + right. intros a m b Ht.
      pose proof (second_marker_behind_first t pre s1 a m b Hfirst Hs Ht) as Hocc.
      apply contains_iff in Hocc. congruence.
  - right. apply no_marker_no_block. intros H. apply contains_iff in H.
    apply split_at_first_none in E1. congruence.
Qed.

(** The first block of a text is the first block of the trimmed text. *)
Lemma fenced_block_strip (t pre tag ws body post : str) :
  fenced_block t pre tag ws body post ->
  exists pre' post', fenced_block (strip t) pre' tag ws body post'.
Proof.
  intros (Ht & [_ Hmin] & Htag & Hnw & Hws & Hns & [_ Hbody]).
  destruct (strip_spec t) as ((l & r & Hs & Hl & Hr) & _).
  rewrite Hs in Ht at 1.
  apply cut_leading_space in Ht as (pre' & Hpre & Ht); [|exact Hl].
  replace (pre' ++ fence ++ tag ++ ws ++ body ++ fence ++ post)
    with ((pre' ++ fence ++ tag ++ ws ++ body) ++ fence ++ post) in Ht
    by (now rewrite <- !app_assoc).
  apply cut_trailing_space in Ht as (post' & Hpost & Ht); [|exact Hr].
  rewrite <- !app_assoc in Ht.
  exists pre', post'. subst pre post. repeat split.
  - exact Ht.
  - now exists (tag ++ ws ++ body ++ fence ++ post').
  - intros a b Ha.
    assert (Hle : length (l ++ pre') <= length (l ++ a)).
    { apply (Hmin (l ++ a) (b ++ r)). rewrite Hs at 1. rewrite Ha.
      now rewrite <- !app_assoc. }
    rewrite !length_app in Hle. lia.
  - exact Htag.
  - apply not_starting_app with (b := r).
    + now rewrite <- !app_assoc.
    + change fence with (96%N :: [96%N; 96%N]).
      destruct ws, body; discriminate.
  - exact Hws.
  - apply not_starting_app with (b := r).
    + now rewrite <- !app_assoc.
    + change fence with (96%N :: [96%N; 96%N]). destruct body; discriminate.
  - now exists post'.
  - intros a b Ha. apply (Hbody a (b ++ r)).
    transitivity ((body ++ fence ++ post') ++ r);
      [now rewrite <- !app_assoc | rewrite Ha; now rewrite <- !app_assoc].
Qed.

(** X4. Trimming a text before the fence extractor changes nothing: the
    extractor gives the same on the text and on the trimmed text, so the
    [.strip()] that both synthesizers apply to the response first never
    shows in their result. *)
Theorem strip_sql_markdown_after_strip (t : str) :
  strip_sql_markdown (strip t) = strip_sql_markdown t.
Proof.
  destruct (block_or_not t) as [Hblock | Hno].
  - apply fenced_block_exists in Hblock as (pre & tag & ws & body & post & Hb).
    destruct (fenced_block_strip _ _ _ _ _ _ Hb) as (pre' & post' & Hb').
    rewrite (strip_sql_markdown_fenced _ _ _ _ _ _ Hb).
    now rewrite (strip_sql_markdown_fenced _ _ _ _ _ _ Hb').
  - rewrite (strip_sql_markdown_unfenced t Hno).
    rewrite strip_sql_markdown_unfenced by now apply block_in_strip.
    apply strip_idempotent.
Qed.

End TrimFacts.

(** ** The descriptor of a loaded frame *)

(** X5. The descriptor built from a loaded frame has the labels of the frame
    as columns, a type for exactly these labels, and as samples the records
    of the first five rows, whose keys are labels of the frame. *)
Theorem extract_dataframe_metadata_invariant (df : LoadedFrame) :
  md_columns (extract_dataframe_metadata df) =
  map (fun c : str * str => VStr (fst c)) (lf_columns df) /\
  (forall k,
     In k (dict_keys (md_dtypes (extract_dataframe_metadata df))) <->
     In k (md_columns (extract_dataframe_metadata df))) /\
  md_sample_rows (extract_dataframe_metadata df) =
  firstn 5 (df_to_records (frame_of df)) /\
  length (md_sample_rows (extract_dataframe_metadata df)) <= 5 /\
  (forall r k,
     In r (md_sample_rows (extract_dataframe_metadata df)) ->
     In k (dict_keys r) ->
     In (VStr k) (md_columns (extract_dataframe_metadata df))).
Proof.
  unfold extract_dataframe_metadata. cbn [md_columns md_dtypes md_sample_rows].
  split; [reflexivity|]. split; [|split; [|split]].
  - intros k. rewrite (dict_of_items_keys _ _ _ value_eqb_eq).
    rewrite map_map. cbn [fst]. reflexivity.
  - apply df_to_records_head.
  - rewrite df_to_records_head. apply firstn_le_length.
  - intros r k Hr Hk. unfold df_to_records, df_head, frame_of in Hr.
    cbn [df_columns df_rows] in Hr.
    apply in_map_iff in Hr as [row [<- _]].
    rewrite (dict_of_items_keys _ _ _ str_eqb_eq) in Hk.
    apply in_map_fst_combine in Hk.
    apply in_map_iff in Hk as [c [<- Hc]].
    apply in_map_iff. now exists c.
Qed.

(** ** What each step does to the world *)

Lemma executed_app (a b : list event) :
  executed (a ++ b) = executed a ++ executed b.
Proof.
  induction a as [|e a IH]; simpl; [reflexivity|].
  destruct e; simpl; now rewrite IH.
Qed.

Section StepFacts.
Context {U : Unicode} {X : External}.

Lemma bind_cases {A B} (m : M A) (k : A -> M B) (w w' : world) (r : exn + B) :
  bind m k w = (r, w') ->
  (exists e, m w = (inl e, w') /\ r = inl e) \/
  (exists a w1, m w = (inr a, w1) /\ k a w1 = (r, w')).
Proof.
  unfold bind. destruct (m w) as [[e|a] w1]; intros H.
  - left. injection H as <- <-. now exists e.
  - right. now exists a, w1.
Qed.

Lemma quiet_refl (w : world) : quiet w w.
Proof. now repeat split. Qed.

Lemma quiet_trans (w1 w2 w3 : world) : quiet w1 w2 -> quiet w2 w3 -> quiet w1 w3.
Proof.
  intros (A1 & A2 & A3 & A4) (B1 & B2 & B3 & B4).
  repeat split; congruence.
Qed.

Lemma quiet_log (e : event) (w : world) :
  touches_store e = false -> quiet w (log e w).
Proof.
  intros He. repeat split. cbn [log w_trace]. rewrite executed_app.
  destruct e; try discriminate; apply app_nil_r.
Qed.

Lemma print_effect (items : list printed) (w w' : world) (r : exn + unit) :
  print items w = (r, w') ->
  r = inr tt /\ quiet w w' /\ w_calls w' = w_calls w /\
  requests (w_trace w') = requests (w_trace w).
Proof.
  unfold print, emit. intros H. injection H as <- <-.
  split; [reflexivity|]. split; [now apply quiet_log|].
  split; [reflexivity|]. cbn [log w_trace].
  rewrite requests_app. apply app_nil_r.
Qed.

Lemma chat_create_effect (rq : request) (w w' : world) (r : exn + response) :
  chat_create rq w = (r, w') ->
  quiet w w' /\ w_calls w' = S (w_calls w) /\
  requests (w_trace w') = requests (w_trace w) ++ [rq].
Proof.
  unfold chat_create. cbv zeta.
  destruct (llm_create (w_calls w) rq); intros H; injection H as _ <-;
    (split; [|split; [reflexivity|]]);
    try (cbn [log w_trace]; now rewrite requests_app);
    repeat split; cbn [log w_trace]; rewrite executed_app; apply app_nil_r.
Qed.

Lemma maintain_tokens_count_effect (rs : response) (w w' : world) (r : exn + unit) :
  maintain_tokens_count rs w = (r, w') ->
  quiet w w' /\ w_calls w' = w_calls w /\
  requests (w_trace w') = requests (w_trace w).
Proof.
  unfold maintain_tokens_count.
  destruct (tokens_count (rs_id rs)); intros H; injection H as _ <-;
    (split; [now apply quiet_log|]); (split; [reflexivity|]);
    cbn [log w_trace]; rewrite requests_app; apply app_nil_r.
Qed.

Lemma content_strip_effect (rs : response) (w w' : world) (r : exn + str) :
  content_strip rs w = (r, w') ->
  w' = w /\ forall s, r = inr s -> exists c, rs_content rs = Some c /\ s = strip c.
Proof.
  unfold content_strip, ret, raise. destruct (rs_content rs) as [c|];
    intros H; injection H as <- <-; (split; [reflexivity|]); intros s Hs;
    [injection Hs as <-; now exists c | discriminate].
Qed.

Lemma one_request_then (rq : request) (w w1 w2 : world) :
  one_request rq w w1 -> quiet w1 w2 -> w_calls w2 = w_calls w1 ->
  requests (w_trace w2) = requests (w_trace w1) ->
  one_request rq w w2.
Proof.
  intros (Hq & Hc & Hr) Hq' Hc' Hr'. split; [|split].
  - eapply quiet_trans; eassumption.
  - congruence.
  - congruence.
Qed.

End StepFacts.

(** ** The synthesizers and the summarizer *)

Section SynthesisFacts.
Context {U : Unicode} {X : External} {I : Ingest}.

Lemma strip_sql_markdown_twice (t : str) :
  strip_sql_markdown (strip_sql_markdown t) = strip_sql_markdown t.
Proof.
  destruct (strip_sql_markdown_cases t) as [(body & Hbody & ->) | (Hno & ->)];
    (rewrite strip_sql_markdown_unfenced; [apply strip_idempotent|]);
    apply block_in_strip; [now apply no_marker_no_block | exact Hno].
Qed.

(** A request, the token count and a notice, then the content trimmed and
    put through the extractor: the shape of both synthesizers. *)
Lemma request_then_extract (rq : request) (notice : list printed)
      (w w' : world) (r : exn + str) :
  bind (chat_create rq) (fun response =>
    bind (maintain_tokens_count response) (fun _ =>
      bind (print notice) (fun _ =>
        bind (content_strip response) (fun content =>
          ret (strip_sql_markdown content))))) w = (r, w') ->
  one_request rq w w' /\
  forall sql, r = inr sql -> strip_sql_markdown sql = sql.
Proof.
  intros H.
  apply bind_cases in H as [(e & Hc & ->) | (rs & w1 & Hc & H)];
    apply chat_create_effect in Hc as Hone; [split; [exact Hone | discriminate]|].
  apply bind_cases in H as [(e & Hm & ->) | ([] & w2 & Hm & H)];
    apply maintain_tokens_count_effect in Hm as (Hq2 & Hc2 & Hr2).
  { split; [now apply (one_request_then rq w w1 w') | discriminate]. }
  pose proof (one_request_then rq w w1 w2 Hone Hq2 Hc2 Hr2) as Hone2.
  apply bind_cases in H as [(e & Hp & ->) | ([] & w3 & Hp & H)];
    apply print_effect in Hp as (Hr & Hq3 & Hc3 & Hr3); [discriminate|].
  pose proof (one_request_then rq w w2 w3 Hone2 Hq3 Hc3 Hr3) as Hone3.
  apply bind_cases in H as [(e & Hs & ->) | (c & w4 & Hs & H)];
    apply content_strip_effect in Hs as (-> & Hcontent).
  { split; [exact Hone3 | discriminate]. }
  unfold ret in H. injection H as <- <-. split; [exact Hone3|].
  intros sql Hsql. injection Hsql as <-.
  apply strip_sql_markdown_twice.
Qed.

Lemma generate_select_sql_effect (q : str) (md : metadata) (t : str)
      (w w' : world) (r : exn + str) :
  generate_select_sql q md t w = (r, w') ->
  quiet w w' /\ w_calls w' = S (w_calls w) /\
  forall sql, r = inr sql -> strip_sql_markdown sql = sql.
Proof.
  intros H. apply request_then_extract in H as ((Hq & Hc & _) & Hsql).
  split; [exact Hq | split; [exact Hc | exact Hsql]].
Qed.

Lemma generate_create_table_sql_effect (md : metadata) (t : str)
      (w w' : world) (r : exn + str) :
  generate_create_table_sql md t w = (r, w') ->
  quiet w w' /\ w_calls w' = S (w_calls w) /\
  forall sql, r = inr sql -> strip_sql_markdown sql = sql.
Proof.
  intros H. apply request_then_extract in H as ((Hq & Hc & _) & Hsql).
  split; [exact Hq | split; [exact Hc | exact Hsql]].
Qed.

Lemma generate_summary_effect (q : str) (df : DataFrame)
      (w w' : world) (r : exn + str) :
  generate_summary q df w = (r, w') ->
  quiet w w' /\ w_calls w <= w_calls w' <= S (w_calls w).
Proof.
  unfold generate_summary. destruct (df_empty df).
  - unfold ret. intros H. injection H as _ <-. split; [apply quiet_refl | lia].
  - cbv zeta. intros H.
    apply bind_cases in H as [(e & Hc & ->) | (rs & w1 & Hc & H)];
      apply chat_create_effect in Hc as (Hq1 & Hc1 & _); [split; [exact Hq1 | lia]|].
    apply bind_cases in H as [(e & Hp & ->) | ([] & w2 & Hp & H)];
      apply print_effect in Hp as (Hr & Hq2 & Hc2 & _); [discriminate|].
    apply bind_cases in H as [(e & Hm & ->) | ([] & w3 & Hm & H)];
      apply maintain_tokens_count_effect in Hm as (Hq3 & Hc3 & _).
    { split; [eapply quiet_trans; [|eassumption]; eapply quiet_trans; eassumption | lia]. }
    apply content_strip_effect in H as (-> & _).
    split; [eapply quiet_trans; [|eassumption]; eapply quiet_trans; eassumption | lia].
Qed.

(** X6. Neither synthesizer nor the summarizer touches the store: whatever
    the service answers and however the call ends, the store is in the same
    state, the same connections are open and no statement has been sent. *)
Theorem synthesizers_leave_store_alone (q : str) (md : metadata) (t : str)
        (df : DataFrame) (w : world) :
  quiet w (snd (generate_select_sql q md t w)) /\
  quiet w (snd (generate_create_table_sql md t w)) /\
  quiet w (snd (generate_summary q df w)).
Proof.
  split; [|split].
  - destruct (generate_select_sql q md t w) as [r w'] eqn:E.
    now apply generate_select_sql_effect in E.
  - destruct (generate_create_table_sql md t w) as [r w'] eqn:E.
    now apply generate_create_table_sql_effect in E.
  - destruct (generate_summary q df w) as [r w'] eqn:E.
    now apply generate_summary_effect in E.
Qed.

(** X7. Each synthesizer calls the service exactly once, whether it returns
    or raises, and a statement it returns is a fixed point of the fence
    extractor: no fenced block and no whitespace around it is left. *)
Theorem synthesizers_return_clean_statement (q : str) (md : metadata) (t : str)
        (w : world) :
  (w_calls (snd (generate_select_sql q md t w)) = S (w_calls w) /\
   forall sql,
     fst (generate_select_sql q md t w) = inr sql ->
     strip_sql_markdown sql = sql /\ strip sql = sql) /\
  (w_calls (snd (generate_create_table_sql md t w)) = S (w_calls w) /\
   forall sql,
     fst (generate_create_table_sql md t w) = inr sql ->
     strip_sql_markdown sql = sql /\ strip sql = sql).
Proof.
  assert (Htrim : forall sql, strip_sql_markdown sql = sql -> strip sql = sql).
  { intros sql Hsql. rewrite <- Hsql.
    destruct (strip_sql_markdown_cases sql) as [(body & _ & ->) | (_ & ->)];
      apply strip_idempotent. }
  split.
  - destruct (generate_select_sql q md t w) as [r w'] eqn:E.
    apply generate_select_sql_effect in E as (_ & Hc & Hsql).
    split; [exact Hc|]. intros sql Hr. cbn [fst] in Hr.
    split; [|apply Htrim]; now apply Hsql.
  - destruct (generate_create_table_sql md t w) as [r w'] eqn:E.
    apply generate_create_table_sql_effect in E as (_ & Hc & Hsql).
    split; [exact Hc|]. intros sql Hr. cbn [fst] in Hr.
    split; [|apply Htrim]; now apply Hsql.
Qed.

End SynthesisFacts.

(** ** The functions that talk to the store *)

Lemma not_in_closed (con : nat) (l : list nat) :
  ~ In con (filter (fun c => negb (c =? con)) l).
Proof.
  intros H. apply filter_In in H as [_ H]. now rewrite Nat.eqb_refl in H.
Qed.

Section StoreFacts.
Context {U : Unicode} {X : External} {I : Ingest}.

(** X8. When [store_table], [verify_table] or [extract_metadata_from_db]
    returns, it has sent exactly its statements, in their order, on the one
    connection it opened, and has closed that connection. *)
Theorem store_functions_scoped (df : LoadedFrame) (create_sql t : str) (w : world) :
  (fst (store_table df create_sql t w) = inr tt ->
   executed (w_trace (snd (store_table df create_sql t w))) =
   executed (w_trace w) ++ [drop_statement t; create_sql; insert_statement t] /\
   ~ In (w_next w) (w_open (snd (store_table df create_sql t w)))) /\
  (fst (verify_table t w) = inr tt ->
   executed (w_trace (snd (verify_table t w))) =
   executed (w_trace w) ++ [verify_statement t] /\
   ~ In (w_next w) (w_open (snd (verify_table t w)))) /\
  (forall md,
     fst (extract_metadata_from_db t w) = inr md ->
     executed (w_trace (snd (extract_metadata_from_db t w))) =
     executed (w_trace w) ++
       [lit "DESCRIBE " ++ t; lit "SELECT * FROM " ++ t ++ lit " LIMIT 3"] /\
     ~ In (w_next w) (w_open (snd (extract_metadata_from_db t w)))).
Proof.
  split; [|split].
  - unfold store_table, bind, connect, run_statement, register, close, log,
      drop_statement, insert_statement.
    destruct (db_connect (w_store w)); [discriminate|].
    cbn [w_store w_open w_next w_calls w_trace].
    destruct (db_run (w_store w) _) as [[e|] s1]; [discriminate|].
    cbn [w_store w_open w_next w_calls w_trace].
    destruct (db_run s1 create_sql) as [[e|] s2]; [discriminate|].
    cbn [w_store w_open w_next w_calls w_trace].
    destruct (db_register s2 _ df) as [[e|] s3]; [discriminate|].
    cbn [w_store w_open w_next w_calls w_trace].
    destruct (db_run s3 _) as [[e|] s4]; [discriminate|].
    cbn [fst snd w_store w_open w_next w_calls w_trace]. intros _. split.
    + rewrite !executed_app. cbn [executed app]. now rewrite <- !app_assoc.
    + apply not_in_closed.
  - unfold verify_table, bind, connect, print, emit, execute_fetchdf, close, log,
      verify_statement.
    destruct (db_connect (w_store w)); [discriminate|].
    cbn [w_store w_open w_next w_calls w_trace].
    destruct (db_execute (w_store w) _) as [[e|r] s1]; [discriminate|].
    cbn [fst snd w_store w_open w_next w_calls w_trace]. intros _. split.
    + rewrite !executed_app. cbn [executed app]. now rewrite <- !app_assoc.
    + apply not_in_closed.
  - intros md.
    unfold extract_metadata_from_db, bind, connect, execute_fetchdf, close, log.
    destruct (db_connect (w_store w)); [discriminate|].
    cbn [w_store w_open w_next w_calls w_trace].
    destruct (db_execute (w_store w) _) as [[e|schema] s1]; [discriminate|].
    cbn [w_store w_open w_next w_calls w_trace].
    destruct (db_execute s1 _) as [[e|sample] s2]; [discriminate|].
    cbn [w_store w_open w_next w_calls w_trace].
    unfold column, ret, raise.
    destruct (df_col schema (lit "column_name")); [|discriminate].
    destruct (df_col schema (lit "column_type")); [|discriminate].
    cbn [fst snd w_store w_open w_next w_calls w_trace]. intros _. split.
    + rewrite !executed_app. cbn [executed app]. now rewrite <- !app_assoc.
    + apply not_in_closed.
Qed.

(** X9. [store_table] is not atomic. When the store has dropped the old
    table and then rejects the table definition, the error comes back with
    the store as the two statements left it: nothing is registered or
    inserted, and the connection stays open. *)
Theorem store_table_failed_definition (df : LoadedFrame) (create_sql t : str)
        (w : world) (s1 s2 : store) (e : exn) :
  db_connect (w_store w) = None ->
  db_run (w_store w) (drop_statement t) = (None, s1) ->
  db_run s1 create_sql = (Some e, s2) ->
  fst (store_table df create_sql t w) = inl e /\
  w_store (snd (store_table df create_sql t w)) = s2 /\
  In (w_next w) (w_open (snd (store_table df create_sql t w))) /\
  executed (w_trace (snd (store_table df create_sql t w))) =
  executed (w_trace w) ++ [drop_statement t; create_sql].
Proof.
  intros Hcon Hdrop Hcreate.
  unfold store_table, bind, connect, run_statement, register, close, log.
  unfold drop_statement in Hdrop. rewrite Hcon.
  cbn [w_store w_open w_next w_calls w_trace]. rewrite Hdrop.
  cbn [w_store w_open w_next w_calls w_trace]. rewrite Hcreate.
  cbn [fst snd w_store w_open w_next w_calls w_trace].
  split; [reflexivity|]. split; [reflexivity|]. split; [now left|].
  rewrite !executed_app. cbn [executed app]. now rewrite <- !app_assoc.
Qed.

(** X10. When the table is not there and the store rejects DESCRIBE, the
    descriptor builder ends with that error: the sample query is never sent,
    and the connection stays open. *)
Theorem extract_metadata_from_db_missing_table (t : str) (w : world)
        (s1 : store) (e : exn) :
  db_connect (w_store w) = None ->
  db_execute (w_store w) (lit "DESCRIBE " ++ t) = (inl e, s1) ->
  fst (extract_metadata_from_db t w) = inl e /\
  w_store (snd (extract_metadata_from_db t w)) = s1 /\
  In (w_next w) (w_open (snd (extract_metadata_from_db t w))) /\
  executed (w_trace (snd (extract_metadata_from_db t w))) =
  executed (w_trace w) ++ [lit "DESCRIBE " ++ t].
Proof.
  intros Hcon Hdesc.
  unfold extract_metadata_from_db, bind, connect, execute_fetchdf, close, log.
  rewrite Hcon. cbn [w_store w_open w_next w_calls w_trace]. rewrite Hdesc.
  cbn [fst snd w_store w_open w_next w_calls w_trace].
  split; [reflexivity|]. split; [reflexivity|]. split; [now left|].
  rewrite !executed_app. cbn [executed app]. now rewrite <- !app_assoc.
Qed.

End StoreFacts.

Lemma store_table_failed_definition_witness :
  fst (store_table demo_loaded (lit "TABLE uploaded_data") TABLE_NAME demo_world) =
  inl (StoreError (lit "Parser Error")) /\
  w_store (snd (store_table demo_loaded (lit "TABLE uploaded_data") TABLE_NAME
                  demo_world)) = {| tb_schema := []; tb_rows := [] |} /\
  In (w_next demo_world)
     (w_open (snd (store_table demo_loaded (lit "TABLE uploaded_data") TABLE_NAME
                     demo_world))) /\
  executed (w_trace (snd (store_table demo_loaded (lit "TABLE uploaded_data")
                            TABLE_NAME demo_world))) =
  executed (w_trace demo_world) ++
    [drop_statement TABLE_NAME; lit "TABLE uploaded_data"].
Proof.
  apply (store_table_failed_definition
           demo_loaded (lit "TABLE uploaded_data") TABLE_NAME demo_world
           {| tb_schema := []; tb_rows := [] |} {| tb_schema := []; tb_rows := [] |});
    reflexivity.
Defined.

Lemma extract_metadata_from_db_missing_table_witness :
  fst (extract_metadata_from_db (lit "nothing_here") demo_world) =
  inl (StoreError (lit "Binder Error")) /\
  w_store (snd (extract_metadata_from_db (lit "nothing_here") demo_world)) =
  demo_table /\
  In (w_next demo_world)
     (w_open (snd (extract_metadata_from_db (lit "nothing_here") demo_world))) /\
  executed (w_trace (snd (extract_metadata_from_db (lit "nothing_here") demo_world))) =
  executed (w_trace demo_world) ++ [lit "DESCRIBE " ++ lit "nothing_here"].
Proof.
  apply (extract_metadata_from_db_missing_table
           (lit "nothing_here") demo_world demo_table); reflexivity.
Defined.

(** ** The loop as a whole *)

Section LoopInvariants.
Context {U : Unicode} {X : External}.

Lemma enforce_limit_validated (sql : str) (n : Z) :
  is_safe_query sql = true -> validated (enforce_limit sql n).
Proof.
  intros H. split; [now apply enforce_limit_keeps_safe | apply enforce_limit_has_limit].
Qed.

Lemma execute_query_effect (q : str) (w w' : world) (r : exn + DataFrame) :
  execute_query q w = (r, w') ->
  w_calls w' = w_calls w /\
  (exists stmts,
     executed (w_trace w') = executed (w_trace w) ++ stmts /\
     (stmts = [] \/ stmts = [q])) /\
  (forall df, r = inr df -> incl (w_open w') (w_open w)).
Proof.
  unfold execute_query, bind, connect, execute_fetchdf, close, ret, log.
  destruct (db_connect (w_store w)).
  - intros H. injection H as <- <-. split; [reflexivity|]. split.
    + exists []. split; [now rewrite app_nil_r | now left].
    + discriminate.
  - cbn [w_store w_open w_next w_calls w_trace].
    destruct (db_execute (w_store w) q) as [[e|df] s];
      intros H; injection H as <- <-; cbn [w_calls w_trace w_open];
      (split; [reflexivity|]); split.
    + exists [q]. split; [|now right].
      rewrite !executed_app. cbn [executed app]. now rewrite app_nil_r.
    + discriminate.
    + exists [q]. split; [|now right].
      rewrite !executed_app. cbn [executed app]. now rewrite <- !app_assoc.
    + intros df' _ c Hc. rewrite Nat.eqb_refl in Hc. cbn [negb] in Hc.
      now apply filter_In in Hc.
Qed.

Lemma log_facts (e : event) (w : world) :
  touches_store e = false ->
  executed (w_trace (log e w)) = executed (w_trace w) /\
  w_calls (log e w) = w_calls w /\ w_open (log e w) = w_open w.
Proof.
  intros He. destruct (quiet_log e w He) as (_ & _ & _ & Hx). now repeat split.
Qed.

(** One pass of the loop on a line that is not "exit": what it adds to the
    world before it ends on an error or goes on with the next line. *)
Lemma turn_effect (md : metadata) (line : str) (rest : list str)
      (w w' : world) (r : exn + unit) :
  str_eqb (str_lower line) (lit "exit") = false ->
  main_loop md (line :: rest) w = (r, w') ->
  exists w1 stmts,
    executed (w_trace w1) = executed (w_trace w) ++ stmts /\
    Forall validated stmts /\ length stmts <= 1 /\
    w_calls w <= w_calls w1 <= w_calls w + 2 /\
    ((exists e, r = inl e /\ w' = w1) \/
     (main_loop md rest w1 = (r, w') /\ incl (w_open w1) (w_open w))).
Proof.
  intros Hexit H. cbn [main_loop] in H. rewrite bind_emit, Hexit in H.
  destruct (log_facts (Prompted ask_prompt) w eq_refl) as (Hx0 & Hc0 & Ho0).
  set (w0 := log (Prompted ask_prompt) w) in *.
  apply bind_cases in H as [(e & Hg & ->) | (sql & wg & Hg & H)];
    apply generate_select_sql_effect in Hg as ((_ & Hog & _ & Hxg) & Hcg & _).
  { exists w', []. rewrite app_nil_r. split; [congruence|].
    split; [constructor|]. split; [simpl; lia|]. split; [lia|].
    left. now exists e. }
  destruct (is_safe_query sql) eqn:Hsafe; cbn [negb] in H.
  - cbv zeta in H. rewrite bind_print in H.
    set (q := enforce_limit sql default_limit) in *.
    destruct (log_facts (Printed [PStr generated_header; PStr q]) wg eq_refl)
      as (Hxp & Hcp & Hop).
    set (wp := log (Printed [PStr generated_header; PStr q]) wg) in *.
    assert (Hval : forall stmts, stmts = [] \/ stmts = [q] ->
                     Forall validated stmts /\ length stmts <= 1).
    { intros stmts [-> | ->]; (split; [|simpl; lia]); [constructor|].
      constructor; [|constructor]. now apply enforce_limit_validated. }
    apply bind_cases in H as [(e & He & ->) | (df & w2 & He & H)];
      apply execute_query_effect in He as (Hc2 & (stmts & Hx2 & Hst) & Ho2);
      destruct (Hval stmts Hst) as (Hv & Hlen).
    { exists w', stmts. split; [congruence|]. split; [exact Hv|].
      split; [exact Hlen|]. split; [lia|]. left. now exists e. }
    rewrite !bind_print in H.
    destruct (log_facts (Printed [PStr result_header]) w2 eq_refl)
      as (Hxa & Hca & Hoa).
    set (wa := log (Printed [PStr result_header]) w2) in *.
    destruct (log_facts (Printed [PFrame (df_head 10 df)]) wa eq_refl)
      as (Hxb & Hcb & Hob).
    set (wb := log (Printed [PFrame (df_head 10 df)]) wa) in *.
    apply bind_cases in H as [(e & Hs & ->) | (summary & w3 & Hs & H)];
      apply generate_summary_effect in Hs as ((_ & Ho3 & _ & Hx3) & Hc3).
    { exists w', stmts. split; [congruence|]. split; [exact Hv|].
      split; [exact Hlen|]. split; [lia|]. left. now exists e. }
    rewrite !bind_print in H.
    destruct (log_facts (Printed [PStr summary_header]) w3 eq_refl)
      as (Hxc & Hcc & Hoc).
    set (wc := log (Printed [PStr summary_header]) w3) in *.
    destruct (log_facts (Printed [PStr summary]) wc eq_refl) as (Hxd & Hcd & Hod).
    set (wd := log (Printed [PStr summary]) wc) in *.
    exists wd, stmts. split; [congruence|]. split; [exact Hv|].
    split; [exact Hlen|]. split; [lia|]. right. split; [exact H|].
    rewrite Hod, Hoc, Ho3, Hob, Hoa. intros c Hc.
    apply (Ho2 df eq_refl) in Hc. rewrite Hop, Hog, Ho0 in Hc. exact Hc.
  - rewrite bind_print in H.
    destruct (log_facts (Printed [PStr blocked_notice]) wg eq_refl)
      as (Hxb & Hcb & Hob).
    set (wb := log (Printed [PStr blocked_notice]) wg) in *.
    exists wb, []. rewrite app_nil_r. split; [congruence|].
    split; [constructor|]. split; [simpl; lia|]. split; [lia|].
    right. split; [exact H|]. rewrite Hob, Hog, Ho0. apply incl_refl.
Qed.

Lemma main_loop_nil (md : metadata) (w : world) :
  main_loop md [] w = (inl EOFError, log (Prompted ask_prompt) w).
Proof. reflexivity. Qed.

Lemma main_loop_exit (md : metadata) (line : str) (rest : list str) (w : world) :
  str_eqb (str_lower line) (lit "exit") = true ->
  main_loop md (line :: rest) w = (inr tt, log (Prompted ask_prompt) w).
Proof. intros H. cbn [main_loop]. now rewrite bind_emit, H. Qed.

(** What the loop has sent to the store when it ends, in whichever way. *)
Lemma main_loop_statements (md : metadata) (lines : list str) (w w' : world)
      (r : exn + unit) :
  main_loop md lines w = (r, w') ->
  exists stmts,
    executed (w_trace w') = executed (w_trace w) ++ stmts /\
    Forall validated stmts /\ length stmts <= length lines.
Proof.
  revert w; induction lines as [|line rest IH]; intros w.
  - rewrite main_loop_nil. intros H. injection H as _ <-. exists [].
    destruct (log_facts (Prompted ask_prompt) w eq_refl) as (-> & _).
    rewrite app_nil_r. now repeat split.
  - destruct (str_eqb (str_lower line) (lit "exit")) eqn:Hexit.
    + rewrite (main_loop_exit md line rest w Hexit).
      intros H. injection H as _ <-. exists [].
      destruct (log_facts (Prompted ask_prompt) w eq_refl) as (-> & _).
      rewrite app_nil_r. repeat split; [constructor | simpl; lia].
    + intros E.
      destruct (turn_effect md line rest w w' r Hexit E)
        as (w1 & stmts & Hx & Hv & Hlen & _ & [(e & _ & ->) | (Hrest & _)]).
      * exists stmts. cbn [length]. repeat split; [exact Hx | exact Hv | lia].
      * destruct (IH w1 Hrest) as (stmts' & Hx' & Hv' & Hlen').
        exists (stmts ++ stmts'). split; [|split].
        -- rewrite Hx', Hx. now rewrite app_assoc.
        -- apply Forall_app. now split.
        -- rewrite length_app. cbn [length]. lia.
Qed.

(** X11. Every statement the loop sends to the store has passed the safety
    gate and has "LIMIT" in its uppercased form, and the loop sends at most
    one statement for each line it is given, however the turns end. *)
Theorem main_loop_executes_validated_only (md : metadata) (lines : list str)
        (w : world) :
  exists stmts,
    executed (w_trace (snd (main_loop md lines w))) =
    executed (w_trace w) ++ stmts /\
    Forall validated stmts /\ length stmts <= length lines.
Proof.
  destruct (main_loop md lines w) as [r w'] eqn:E. cbn [snd].
  now apply main_loop_statements in E.
Qed.

(** X12. The loop calls the service at most twice for each line it is given:
    once for the statement and once for the summary. *)
Theorem main_loop_service_calls (md : metadata) (lines : list str) (w : world) :
  w_calls w <= w_calls (snd (main_loop md lines w)) <=
  w_calls w + 2 * length lines.
Proof.
  revert w; induction lines as [|line rest IH]; intros w.
  - rewrite main_loop_nil. cbn [snd log w_calls length]. lia.
  - destruct (str_eqb (str_lower line) (lit "exit")) eqn:Hexit.
    + rewrite (main_loop_exit md line rest w Hexit).
      cbn [snd log w_calls length]. lia.
    + destruct (main_loop md (line :: rest) w) as [r w'] eqn:E.
      destruct (turn_effect md line rest w w' r Hexit E)
        as (w1 & stmts & _ & _ & _ & Hc & [(e & _ & ->) | (Hrest & _)]).
      * cbn [snd length]. lia.
      * specialize (IH w1). rewrite Hrest in IH. cbn [snd length] in *. lia.
Qed.

(** X13. The loop returns only on a line that reads "exit" in lower case;
    without one it ends on an error, at the latest on the end of the input.
    When it returns, every connection it opened is closed. *)
Theorem main_loop_returns_on_exit (md : metadata) (lines : list str) (w : world) :
  fst (main_loop md lines w) = inr tt ->
  (exists before line after,
     lines = before ++ line :: after /\ str_lower line = lit "exit") /\
  incl (w_open (snd (main_loop md lines w))) (w_open w).
Proof.
  revert w; induction lines as [|line rest IH]; intros w.
  - rewrite main_loop_nil. discriminate.
  - destruct (str_eqb (str_lower line) (lit "exit")) eqn:Hexit.
    + rewrite (main_loop_exit md line rest w Hexit). intros _. split.
      * exists [], line, rest. split; [reflexivity | now apply str_eqb_eq].
      * apply incl_refl.
    + destruct (main_loop md (line :: rest) w) as [r w'] eqn:E.
      destruct (turn_effect md line rest w w' r Hexit E)
        as (w1 & stmts & _ & _ & _ & _ & [(e & -> & _) | (Hrest & Ho)]);
        [discriminate|].
      cbn [fst snd]. intros Hr.
      specialize (IH w1). rewrite Hrest in IH. cbn [fst snd] in IH.
      destruct (IH Hr) as ((before & l & after & -> & Hl) & Hincl).
      split.
      * now exists (line :: before), l, after.
      * intros c Hc. apply Ho, Hincl, Hc.
Qed.

Lemma main_loop_congr (md : metadata) (line : str) (r1 r2 : list str) :
  (forall w, main_loop md r1 w = main_loop md r2 w) ->
  forall w, main_loop md (line :: r1) w = main_loop md (line :: r2) w.
Proof.
  intros H w. cbn [main_loop]. rewrite !bind_emit.
  destruct (str_eqb (str_lower line) (lit "exit")); [reflexivity|].
  unfold bind.
  destruct (generate_select_sql line md TABLE_NAME _) as [[e|sql] wg];
    [reflexivity|].
  destruct (negb (is_safe_query sql)).
  - unfold print, emit. apply H.
  - cbv zeta. unfold print, emit.
    destruct (execute_query _ _) as [[e|df] w2]; [reflexivity|].
    destruct (generate_summary _ _ _) as [[e|summary] w3]; [reflexivity|].
    apply H.
Qed.

(** X14. What stands behind an "exit" line is never read: the loop runs the
    same, to the same outcome and the same world, whatever follows it. *)
Theorem main_loop_ignores_after_exit (md : metadata) (before : list str)
        (line : str) (after : list str) (w : world) :
  str_lower line = lit "exit" ->
  main_loop md (before ++ line :: after) w = main_loop md (before ++ [line]) w.
Proof.
  intros Hexit. revert w. induction before as [|l before IH]; intros w.
  - cbn [app]. apply str_eqb_eq in Hexit. now rewrite !main_loop_exit.
  - cbn [app]. now apply main_loop_congr.
Qed.

End LoopInvariants.

Lemma main_loop_returns_on_exit_witness :
  fst (main_loop demo_metadata [lit "show rows"; lit "EXIT"; lit "more"] demo_world) =
  inr tt /\
  (exists before line after,
     [lit "show rows"; lit "EXIT"; lit "more"] = before ++ line :: after /\
     str_lower line = lit "exit") /\
  incl (w_open (snd (main_loop demo_metadata
                       [lit "show rows"; lit "EXIT"; lit "more"] demo_world)))
       (w_open demo_world).
Proof.
  split; [reflexivity|].
  apply (main_loop_returns_on_exit demo_metadata
           [lit "show rows"; lit "EXIT"; lit "more"] demo_world).
  reflexivity.
Defined.

Lemma main_loop_ignores_after_exit_witness :
  str_lower (lit "Exit") = lit "exit" /\
  main_loop demo_metadata ([lit "remove everything"] ++ lit "Exit" :: [lit "show rows"])
    demo_world =
  main_loop demo_metadata ([lit "remove everything"] ++ [lit "Exit"]) demo_world.
Proof.
  split; [reflexivity|].
  apply (main_loop_ignores_after_exit demo_metadata [lit "remove everything"]
           (lit "Exit") [lit "show rows"] demo_world).
  reflexivity.
Defined.

(** ** The ingestion and the script *)

Lemma ends_with_iff (suffix s : str) :
  ends_with suffix s = true <-> exists p, s = p ++ suffix.
Proof.
  unfold ends_with. rewrite starts_with_iff. split.
  - intros [b Hb]. exists (rev b).
    rewrite <- (rev_involutive s), Hb, rev_app_distr.
    now rewrite rev_involutive.
  - intros [p ->]. exists (rev p). apply rev_app_distr.
Qed.

Section IngestionFacts.
Context {U : Unicode} {X : External} {I : Ingest}.

Lemma sbind_say {B} (s : str) (k : unit -> Boot B) (w : world) :
  sbind (say s) k w = k tt (log (Printed [PStr s]) w).
Proof. reflexivity. Qed.

Lemma sbind_pure {A B} (r : startup_exn + A) (k : A -> Boot B) (w : world) :
  sbind (pure_call r) k w =
  match r with
  | inl e => (inl e, w)
  | inr a => k a w
  end.
Proof. unfold sbind, pure_call. now destruct r. Qed.

Lemma sbind_lift {A B} (m : M A) (k : A -> Boot B) (w : world) :
  sbind (lift m) k w =
  match m w with
  | (inl e, w') => (inl (Raised e), w')
  | (inr a, w') => k a w'
  end.
Proof. unfold sbind, lift. now destruct (m w) as [[e|a] w']. Qed.

(** What [store_table] has sent when it ends, in whichever way. *)
Lemma store_table_effect (df : LoadedFrame) (sql t : str) (w w' : world)
      (r : exn + unit) :
  store_table df sql t w = (r, w') ->
  w_calls w' = w_calls w /\
  exists k,
    k <= 3 /\
    executed (w_trace w') =
    executed (w_trace w) ++ firstn k [drop_statement t; sql; insert_statement t] /\
    (r = inr tt -> k = 3 /\ incl (w_open w') (w_open w)).
Proof.
  unfold store_table, bind, connect, run_statement, register, close, log,
    drop_statement, insert_statement.
  destruct (db_connect (w_store w)).
  { intros H. injection H as <- <-. split; [reflexivity|]. exists 0.
    split; [lia|]. split; [now rewrite app_nil_r | discriminate]. }
  cbn [w_store w_open w_next w_calls w_trace].
  destruct (db_run (w_store w) _) as [[e|] s1].
  { intros H. injection H as <- <-. split; [reflexivity|]. exists 1.
    split; [lia|]. cbn [w_trace firstn]. split; [|discriminate].
    rewrite !executed_app. cbn [executed app]. now rewrite app_nil_r. }
  cbn [w_store w_open w_next w_calls w_trace].
  destruct (db_run s1 sql) as [[e|] s2].
  { intros H. injection H as <- <-. split; [reflexivity|]. exists 2.
    split; [lia|]. cbn [w_trace firstn]. split; [|discriminate].
    rewrite !executed_app. cbn [executed app]. now rewrite <- !app_assoc. }
  cbn [w_store w_open w_next w_calls w_trace].
  destruct (db_register s2 _ df) as [[e|] s3].
  { intros H. injection H as <- <-. split; [reflexivity|]. exists 2.
    split; [lia|]. cbn [w_trace firstn]. split; [|discriminate].
    rewrite !executed_app. cbn [executed app]. now rewrite <- !app_assoc. }
  cbn [w_store w_open w_next w_calls w_trace].
  destruct (db_run s3 _) as [[e|] s4];
    intros H; injection H as <- <-; (split; [reflexivity|]); exists 3;
    (split; [lia|]); cbn [w_trace w_open firstn]; split;
    try (rewrite !executed_app; cbn [executed app]; now rewrite <- !app_assoc);
    try discriminate.
  intros _. split; [reflexivity|]. intros c Hc.
  rewrite Nat.eqb_refl in Hc. cbn [negb] in Hc. now apply filter_In in Hc.
Qed.

Lemma verify_table_effect (t : str) (w w' : world) (r : exn + unit) :
  verify_table t w = (r, w') ->
  w_calls w' = w_calls w /\
  exists k,
    k <= 1 /\
    executed (w_trace w') = executed (w_trace w) ++ firstn k [verify_statement t] /\
    (r = inr tt -> k = 1 /\ incl (w_open w') (w_open w)).
Proof.
  unfold verify_table, bind, connect, print, emit, execute_fetchdf, close, log,
    verify_statement.
  destruct (db_connect (w_store w)).
  { intros H. injection H as <- <-. split; [reflexivity|]. exists 0.
    split; [lia|]. split; [now rewrite app_nil_r | discriminate]. }
  cbn [w_store w_open w_next w_calls w_trace].
  destruct (db_execute (w_store w) _) as [[e|df] s1];
    intros H; injection H as <- <-; (split; [reflexivity|]); exists 1;
    (split; [lia|]); cbn [w_trace w_open firstn]; split;
    try (rewrite !executed_app; cbn [executed app]; now rewrite <- ?app_assoc);
    try discriminate.
  intros _. split; [reflexivity|]. intros c Hc.
  rewrite Nat.eqb_refl in Hc. cbn [negb] in Hc. now apply filter_In in Hc.
Qed.

Lemma extract_metadata_from_db_effect (t : str) (w w' : world)
      (r : exn + metadata) :
  extract_metadata_from_db t w = (r, w') ->
  w_calls w' = w_calls w /\
  exists k,
    k <= 2 /\
    executed (w_trace w') =
    executed (w_trace w) ++
      firstn k [lit "DESCRIBE " ++ t; lit "SELECT * FROM " ++ t ++ lit " LIMIT 3"] /\
    (forall md, r = inr md -> k = 2 /\ incl (w_open w') (w_open w)).
Proof.
  unfold extract_metadata_from_db, bind, connect, execute_fetchdf, close, log.
  destruct (db_connect (w_store w)).
  { intros H. injection H as <- <-. split; [reflexivity|]. exists 0.
    split; [lia|]. split; [now rewrite app_nil_r | discriminate]. }
  cbn [w_store w_open w_next w_calls w_trace].
  destruct (db_execute (w_store w) _) as [[e|schema] s1].
  { intros H. injection H as <- <-. split; [reflexivity|]. exists 1.
    split; [lia|]. cbn [w_trace firstn]. split; [|discriminate].
    rewrite !executed_app. cbn [executed app]. now rewrite app_nil_r. }
  cbn [w_store w_open w_next w_calls w_trace].
  destruct (db_execute s1 _) as [[e|sample] s2].
  { intros H. injection H as <- <-. split; [reflexivity|]. exists 2.
    split; [lia|]. cbn [w_trace firstn]. split; [|discriminate].
    rewrite !executed_app. cbn [executed app]. now rewrite <- !app_assoc. }
  cbn [w_store w_open w_next w_calls w_trace].
  unfold column, ret, raise.
  destruct (df_col schema (lit "column_name"));
    [destruct (df_col schema (lit "column_type"))|];
    intros H; injection H as <- <-; (split; [reflexivity|]); exists 2;
    (split; [lia|]); cbn [w_trace w_open firstn]; split;
    try (rewrite !executed_app; cbn [executed app]; now rewrite <- !app_assoc);
    try discriminate.
  intros md _. split; [reflexivity|]. intros c Hc.
  rewrite Nat.eqb_refl in Hc. cbn [negb] in Hc. now apply filter_In in Hc.
Qed.

Lemma firstn_ingestion_store (k : nat) (ddl t : str) :
  k <= 3 ->
  firstn k [drop_statement t; ddl; insert_statement t] =
  firstn k (ingestion_statements ddl t).
Proof.
  intros Hk. destruct k as [|[|[|[|k]]]]; reflexivity || lia.
Qed.

Lemma firstn_ingestion_verify (k : nat) (ddl t : str) :
  k <= 1 ->
  [drop_statement t; ddl; insert_statement t] ++ firstn k [verify_statement t] =
  firstn (3 + k) (ingestion_statements ddl t).
Proof.
  intros Hk. destruct k as [|[|k]]; reflexivity || lia.
Qed.

Lemma strip_sql_markdown_nil : strip_sql_markdown [] = [].
Proof. reflexivity. Qed.

(** What [process_file] has done when it ends, in whichever way. *)
Lemma process_file_effect (path : str) (w w' : world) (r : startup_exn + unit) :
  process_file path w = (r, w') ->
  exists ddl k,
    k <= 4 /\
    executed (w_trace w') =
    executed (w_trace w) ++ firstn k (ingestion_statements ddl TABLE_NAME) /\
    strip_sql_markdown ddl = ddl /\
    w_calls w <= w_calls w' <= S (w_calls w) /\
    (r = inr tt ->
     k = 4 /\ w_calls w' = S (w_calls w) /\ incl (w_open w') (w_open w)).
Proof.
  unfold process_file. rewrite sbind_say.
  destruct (log_facts (Printed [PStr (lit "Loading file...")]) w eq_refl)
    as (Hx0 & Hc0 & Ho0).
  set (w0 := log (Printed [PStr (lit "Loading file...")]) w) in *.
  rewrite sbind_pure. destruct (load_file path) as [e|df0].
  { intros H. injection H as <- <-. exists [], 0. rewrite app_nil_r.
    split; [lia|]. split; [exact Hx0|]. split; [apply strip_sql_markdown_nil|].
    split; [lia | discriminate]. }
  rewrite sbind_say.
  destruct (log_facts (Printed [PStr (lit "Cleaning data...")]) w0 eq_refl)
    as (Hx1 & Hc1 & Ho1).
  set (w1 := log (Printed [PStr (lit "Cleaning data...")]) w0) in *.
  rewrite sbind_pure. destruct (clean_data df0) as [msg|df].
  { intros H. injection H as <- <-. exists [], 0. rewrite app_nil_r.
    split; [lia|]. split; [congruence|]. split; [apply strip_sql_markdown_nil|].
    split; [lia | discriminate]. }
  rewrite !sbind_say. cbv zeta.
  destruct (log_facts (Printed [PStr (lit "Extracting metadata...")]) w1 eq_refl)
    as (Hx2 & Hc2 & Ho2).
  set (w2 := log (Printed [PStr (lit "Extracting metadata...")]) w1) in *.
  destruct (log_facts (Printed [PStr (lit "Generating CREATE TABLE SQL...")]) w2
              eq_refl) as (Hx3 & Hc3 & Ho3).
  set (w3 := log (Printed [PStr (lit "Generating CREATE TABLE SQL...")]) w2) in *.
  rewrite sbind_lift.
  destruct (generate_create_table_sql (extract_dataframe_metadata df) TABLE_NAME w3)
    as [[e|ddl] w4] eqn:E;
    apply generate_create_table_sql_effect in E as ((_ & Ho4 & _ & Hx4) & Hc4 & Hddl).
  { intros H. injection H as <- <-. exists [], 0. rewrite app_nil_r.
    split; [lia|]. split; [congruence|]. split; [apply strip_sql_markdown_nil|].
    split; [lia | discriminate]. }
  specialize (Hddl ddl eq_refl).
  rewrite !sbind_say, sbind_lift.
  match goal with
  | |- context [store_table df ddl TABLE_NAME ?wx] => set (w7 := wx)
  end.
  assert (H7 : executed (w_trace w7) = executed (w_trace w4) /\
               w_calls w7 = w_calls w4 /\ w_open w7 = w_open w4).
  { unfold w7. cbn [log w_trace w_calls w_open]. rewrite !executed_app.
    cbn [executed]. now rewrite !app_nil_r. }
  destruct H7 as (Hx7 & Hc7 & Ho7).
  destruct (store_table df ddl TABLE_NAME w7) as [[e|[]] w8] eqn:Es;
    apply store_table_effect in Es as (Hc8 & k & Hk & Hx8 & Hok).
  { intros H. injection H as <- <-. exists ddl, k. split; [lia|].
    split; [rewrite Hx8, firstn_ingestion_store by exact Hk; congruence|].
    split; [exact Hddl|]. split; [lia | discriminate]. }
  destruct (Hok eq_refl) as (-> & Ho8). cbn [firstn] in Hx8.
  rewrite sbind_lift.
  destruct (verify_table TABLE_NAME w8) as [[e|[]] w9] eqn:Ev;
    apply verify_table_effect in Ev as (Hc9 & k & Hk' & Hx9 & Hok').
  { intros H. injection H as <- <-. exists ddl, (3 + k). split; [lia|].
    split; [|split; [exact Hddl|split; [lia | discriminate]]].
    rewrite Hx9, Hx8, <- app_assoc, firstn_ingestion_verify by exact Hk'.
    congruence. }
  destruct (Hok' eq_refl) as (-> & Ho9).
  unfold say, lift, print, emit. intros H. injection H as <- <-.
  exists ddl, 4. split; [lia|]. cbn [log w_trace w_calls w_open].
  split; [|split; [exact Hddl|split; [lia|]]].
  - rewrite executed_app. cbn [executed]. rewrite app_nil_r.
    rewrite Hx9, Hx8, <- app_assoc. cbn [firstn app ingestion_statements].
    congruence.
  - intros _. split; [reflexivity|]. split; [lia|].
    intros c Hc. apply Ho9, Ho8 in Hc. congruence.
Qed.

End IngestionFacts.

Section ScriptFacts.
Context {U : Unicode} {X : External} {I : Ingest}.

(** X15. On a path that ends neither in ".csv" nor in ".xlsx", in exactly
    these letters, [process_file] prints that it loads the file and ends
    with the error of the unsupported format: no reader is asked, the
    service is not called and the store is not touched. *)
Theorem process_file_unsupported_path (path : str) (w : world) :
  ends_with (lit ".csv") path = false ->
  ends_with (lit ".xlsx") path = false ->
  process_file path w =
  (inl (ValueError (lit "Unsupported file format")),
   log (Printed [PStr (lit "Loading file...")]) w).
Proof.
  intros Hcsv Hxlsx. unfold process_file. rewrite sbind_say, sbind_pure.
  unfold load_file. now rewrite Hcsv, Hxlsx.
Qed.


Lemma firstn_script_ingestion (k : nat) (ddl t : str) (l : list str) :
  k <= 4 ->
  firstn k (ingestion_statements ddl t) =
  firstn k (ingestion_statements ddl t ++ l).
Proof.
  intros Hk. rewrite firstn_app. cbn [ingestion_statements length].
  replace (k - 4) with 0 by lia. cbn [firstn]. now rewrite app_nil_r.
Qed.

Lemma firstn_script_descriptor (k : nat) (ddl t : str) (l : list str) :
  ingestion_statements ddl t ++ firstn k l =
  firstn (4 + k) (ingestion_statements ddl t ++ l).
Proof.
  rewrite firstn_app. cbn [ingestion_statements length].
  replace (4 + k - 4) with k by lia. f_equal.
  cbn [Nat.add firstn]. now destruct k.
Qed.

(** X17. Without both credentials the script raises at once and does
    nothing. With them, every statement it ever sends to the store is, in
    this order, one of the four statements of the ingestion, one of the two
    of the schema descriptor builder, or a statement of the loop, which has
    passed the safety gate and has a bound; the loop sends none before all
    six others were sent. *)
Theorem script_statements (api_key azure_endpoint : option str)
        (lines : list str) (w : world) :
  (is_missing api_key || is_missing azure_endpoint = true ->
   script api_key azure_endpoint lines w =
   (inl (RuntimeError (lit "Azure OpenAI configuration is missing.")), w)) /\
  exists ddl k stmts,
    executed (w_trace (snd (script api_key azure_endpoint lines w))) =
    executed (w_trace w) ++
      firstn k (ingestion_statements ddl TABLE_NAME ++
                [lit "DESCRIBE " ++ TABLE_NAME;
                 lit "SELECT * FROM " ++ TABLE_NAME ++ lit " LIMIT 3"]) ++
      stmts /\
    Forall validated stmts /\ length stmts <= length lines /\
    (stmts <> [] -> k = 6).
Proof.
  unfold script, check_config.
  destruct (is_missing api_key || is_missing azure_endpoint).
  { split; [reflexivity|]. exists [], 0, []. cbn [sbind pure_call snd firstn app].
    rewrite app_nil_r. repeat split; [constructor | simpl; lia | congruence]. }
  split; [discriminate|].
  unfold sbind at 1. unfold sret.
  unfold sbind at 1.
  destruct (process_file (lit "testdata.csv") w) as [[e|[]] w1] eqn:Ep;
    apply process_file_effect in Ep as (ddl & k & Hk & Hx1 & _ & _ & Hok).
  { exists ddl, k, []. cbn [snd]. rewrite app_nil_r.
    rewrite <- firstn_script_ingestion by exact Hk.
    repeat split; [exact Hx1 | constructor | simpl; lia | congruence]. }
  destruct (Hok eq_refl) as (-> & _). cbn [firstn ingestion_statements] in Hx1.
  rewrite sbind_lift.
  destruct (extract_metadata_from_db TABLE_NAME w1) as [[e|md] w2] eqn:Ee;
    apply extract_metadata_from_db_effect in Ee as (_ & k & Hk2 & Hx2 & Hok2).
  { exists ddl, (4 + k), []. cbn [snd]. rewrite app_nil_r.
    rewrite <- firstn_script_descriptor.
    split; [|repeat split; [constructor | simpl; lia | congruence]].
    rewrite Hx2, Hx1, <- app_assoc. reflexivity. }
  destruct (Hok2 md eq_refl) as (-> & _). cbn [firstn] in Hx2.
  unfold lift.
  destruct (main_loop md lines w2) as [[e|[]] w3] eqn:El;
    apply main_loop_statements in El as (stmts & Hx3 & Hv & Hlen);
    exists ddl, 6, stmts; cbn [snd];
    (split; [|split; [exact Hv | split; [exact Hlen | reflexivity]]]);
    rewrite Hx3, Hx2, Hx1, <- !app_assoc; reflexivity.
Qed.

End ScriptFacts.

Lemma process_file_unsupported_path_witness :
  ends_with (lit ".csv") (lit "DATA.CSV") = false /\
  ends_with (lit ".xlsx") (lit "DATA.CSV") = false /\
  process_file (lit "DATA.CSV") demo_world =
  (inl (ValueError (lit "Unsupported file format")),
   log (Printed [PStr (lit "Loading file...")]) demo_world).
Proof.
  split; [reflexivity|]. split; [reflexivity|].
  apply (process_file_unsupported_path (lit "DATA.CSV") demo_world); reflexivity.
Defined.
